(** * marge-and-ralph: the agent signal protocol

    A shallow embedding of [src/agents/signals.ts], [src/agents/spawn.ts]
    and [src/agents/monitor.ts], and the properties of the signal parser,
    the stream reader and the monitor that the specification states.

    Text is modelled as JavaScript has it: a string is a sequence of
    UTF-16 code units.  The three regular expressions of [signals.ts] are
    kept as syntax trees and run by a backtracking matcher that follows
    the ECMAScript matching order (leftmost start, greedy quantifiers). *)

From Stdlib Require Import NArith ZArith Ascii String.
From stdpp Require Import base option list gmap.

Local Open Scope N_scope.

(** ** JavaScript strings *)

Module JsString.

(** A UTF-16 code unit. *)
Definition char := N.

(** A JavaScript string value. *)
Definition jsstring := list char.

Definition char_of_ascii (a : ascii) : char := N_of_ascii a.

(** An ASCII literal of the source, as a JavaScript string. *)
Fixpoint lit (s : string) : jsstring :=
  match s with
  | EmptyString => []
  | String a s' => char_of_ascii a :: lit s'
  end.

(** [\w] of a RegExp without the [u] and [i] flags: [[A-Za-z0-9_]]. *)
Definition is_word (c : char) : bool :=
  ((48 <=? c) && (c <=? 57)) || ((65 <=? c) && (c <=? 90))
  || ((97 <=? c) && (c <=? 122)) || (c =? 95).

(** ECMAScript [WhiteSpace] and [LineTerminator] code units: what [\s]
    matches and what [String.prototype.trim] strips. *)
Definition is_space (c : char) : bool :=
  ((9 <=? c) && (c <=? 13)) || (c =? 32) || (c =? 160) || (c =? 5760)
  || ((8192 <=? c) && (c <=? 8202)) || (c =? 8232) || (c =? 8233)
  || (c =? 8239) || (c =? 8287) || (c =? 12288) || (c =? 65279).

(** [s.startsWith(pat)] at position 0. *)
Fixpoint starts_with (pat s : jsstring) : bool :=
  match pat, s with
  | [], _ => true
  | _ :: _, [] => false
  | p :: pat', c :: s' => (p =? c) && starts_with pat' s'
  end.

(** [s.indexOf(pat)], searching from position [i] of the original string:
    the index of the first occurrence, [-1] when there is none. *)
Fixpoint indexOf_from (s pat : jsstring) (i : Z) : Z :=
  if starts_with pat s then i
  else match s with
       | [] => (-1)%Z
       | _ :: s' => indexOf_from s' pat (i + 1)%Z
       end.

Definition indexOf (s pat : jsstring) : Z := indexOf_from s pat 0%Z.

(** [s.includes(pat)]. *)
Definition includes (s pat : jsstring) : bool := (0 <=? indexOf s pat)%Z.

(** [s.slice(start)] for a start index inside [0, s.length]. *)
Definition slice_from (s : jsstring) (start : nat) : jsstring := drop start s.

(** [s.slice(0, stop)] for a non-negative [stop]. *)
Definition slice_to (s : jsstring) (stop : Z) : jsstring := take (Z.to_nat stop) s.

Fixpoint trim_start (s : jsstring) : jsstring :=
  match s with
  | c :: s' => if is_space c then trim_start s' else s
  | [] => []
  end.

Definition trim_end (s : jsstring) : jsstring := reverse (trim_start (reverse s)).

(** [s.trim()]. *)
Definition trim (s : jsstring) : jsstring := trim_end (trim_start s).

(** [parts.join(sep)]. *)
Fixpoint join (sep : jsstring) (parts : list jsstring) : jsstring :=
  match parts with
  | [] => []
  | [p] => p
  | p :: rest => p ++ sep ++ join sep rest
  end.

(** [s.split("\n")]: never empty; the last element is the text after the
    last newline. *)
Fixpoint split_nl (s : jsstring) : list jsstring :=
  match s with
  | [] => [[]]
  | c :: s' =>
      if c =? 10 then [] :: split_nl s'
      else match split_nl s' with
           | l :: ls => (c :: l) :: ls
           | [] => [[c]]
           end
  end.

(** No newline in a string. *)
Definition nlfree (s : jsstring) : Prop := Forall (fun c => c <> 10) s.

(** [lines.pop()]: the array without its last element, and that element
    ([None] for [undefined], on an empty array). *)
Fixpoint pop (l : list jsstring) : list jsstring * option jsstring :=
  match l with
  | [] => ([], None)
  | x :: l' =>
      match l' with
      | [] => ([], Some x)
      | _ :: _ => let (r, y) := pop l' in (x :: r, y)
      end
  end.

End JsString.
Export JsString.

(** ** Regular expressions *)

Module Regex.

(** The fragment of RegExp syntax the source uses. *)
Inductive regex :=
| Eps                            (* the empty pattern *)
| Chr (c : char)                 (* a literal character *)
| Cls (p : char -> bool)         (* a character class *)
| Cat (r1 r2 : regex)            (* concatenation *)
| Star (r : regex)               (* greedy [r*] *)
| Grp (i : nat) (r : regex).     (* capturing group number [i] *)

(** [r+]. *)
Definition Plus (r : regex) : regex := Cat r (Star r).

(** A literal string. *)
Fixpoint Str (s : jsstring) : regex :=
  match s with
  | [] => Eps
  | c :: s' => Cat (Chr c) (Str s')
  end.

(** Captures: group number and captured text, most recent first. *)
Definition caps := list (nat * jsstring).

Fixpoint group (cs : caps) (i : nat) : option jsstring :=
  match cs with
  | [] => None
  | (j, t) :: cs' => if (i =? j)%nat then Some t else group cs' i
  end.

(** The loop of a greedy star over a [body] matcher: one more iteration
    first (it must consume input, as in the ECMAScript RepeatMatcher, or
    that path fails), the continuation [k] otherwise.  Every iteration
    shortens the input, so [length s] rounds of fuel are never used up. *)
Fixpoint star_loop {A}
    (body : jsstring -> caps -> (jsstring -> caps -> option A) -> option A)
    (k : jsstring -> caps -> option A)
    (fuel : nat) (s : jsstring) (cs : caps) : option A :=
  match fuel with
  | O => k s cs
  | S fuel' =>
      match body s cs (fun s' cs' =>
              if (length s' <? length s)%nat
              then star_loop body k fuel' s' cs'
              else None) with
      | Some x => Some x
      | None => k s cs
      end
  end.

(** Backtracking matcher in continuation-passing style: [run r s cs k]
    matches [r] at the head of [s] and hands the rest of the input and the
    captures to [k]; when [k] fails the next alternative of [r] is tried. *)
Fixpoint run {A} (r : regex) (s : jsstring) (cs : caps)
    (k : jsstring -> caps -> option A) : option A :=
  match r with
  | Eps => k s cs
  | Chr c =>
      match s with
      | c' :: s' => if c =? c' then k s' cs else None
      | [] => None
      end
  | Cls p =>
      match s with
      | c' :: s' => if p c' then k s' cs else None
      | [] => None
      end
  | Cat r1 r2 => run r1 s cs (fun s' cs' => run r2 s' cs' k)
  | Star r' => star_loop (fun s' cs' k' => run r' s' cs' k') k (length s) s cs
  | Grp i r' =>
      run r' s cs (fun s' cs' =>
        k s' ((i, take (length s - length s') s) :: cs'))
  end.

(** Patterns that cannot match the empty string. *)
Fixpoint consuming (r : regex) : bool :=
  match r with
  | Eps | Star _ => false
  | Chr _ | Cls _ => true
  | Cat r1 r2 => consuming r1 || consuming r2
  | Grp _ r' => consuming r'
  end.

(** The result of [RegExp.prototype.exec]: [index], [m[0]] and the groups. *)
Record rmatch := { m_index : nat; m_text : jsstring; m_caps : caps }.

(** Try the pattern at the current position, then one position further. *)
Fixpoint exec_from (r : regex) (s : jsstring) (idx : nat) : option rmatch :=
  match run r s [] (fun s' cs => Some (s', cs)) with
  | Some (s', cs) =>
      Some {| m_index := idx; m_text := take (length s - length s') s; m_caps := cs |}
  | None =>
      match s with
      | [] => None
      | _ :: s' => exec_from r s' (S idx)
      end
  end.

(** [re.exec(s)] for a RegExp without the [g] flag. *)
Definition exec (r : regex) (s : jsstring) : option rmatch := exec_from r s 0.

(** [re.exec(s)] for a RegExp with the [g] flag, whose [lastIndex] is
    passed in and returned: the search starts at [lastIndex]; a match moves
    [lastIndex] behind the matched text, a failure sets it to 0. *)
Definition exec_g (r : regex) (s : jsstring) (lastIndex : nat)
    : option rmatch * nat :=
  if (length s <? lastIndex)%nat then (None, O)
  else match exec_from r (drop lastIndex s) lastIndex with
       | Some m => (Some m, (m_index m + length (m_text m))%nat)
       | None => (None, O)
       end.

(** [re.test(s)]. *)
Definition test (r : regex) (s : jsstring) : bool :=
  match exec r s with Some _ => true | None => false end.

End Regex.
Export Regex.

(** ** The signal parser ([src/agents/signals.ts]) *)

Module Signals.

(** [Record<string, string>]: an object used as a map. *)
Definition Attrs := gmap jsstring jsstring.

(** [interface Signal].  The parser casts the captured type name to
    [SignalType] without checking it, so a type is any word. *)
Record Signal := { type : jsstring; attrs : Attrs; body : jsstring }.

Definition sp : regex := Cls is_space.
Definition wd : regex := Cls is_word.
Definition not_quote : regex := Cls (fun c => negb (c =? 34)).

(** The pattern [SIGNAL_OPEN]: the comment opener, [\s*], [SIGNAL:],
    group 1 = [\w+], group 2 = any number of attribute pairs
    [\s+ \w+ = Q [^Q]* Q], then [\s*] and the comment closer.  Q stands for
    the double quote (code unit 34); [=] is code unit 61. *)
Definition SIGNAL_OPEN : regex :=
  Cat (Str (lit "<!--"))
 (Cat (Star sp)
 (Cat (Str (lit "SIGNAL:"))
 (Cat (Grp 1 (Plus wd))
 (Cat (Grp 2 (Star (Cat (Plus sp) (Cat (Plus wd)
                (Cat (Chr 61) (Cat (Chr 34) (Cat (Star not_quote) (Chr 34))))))))
 (Cat (Star sp)
      (Str (lit "-->"))))))).

(** The pattern [SIGNAL_CLOSE]: the comment opener, [\s*], [/SIGNAL],
    [\s*] and the comment closer. *)
Definition SIGNAL_CLOSE : regex :=
  Cat (Str (lit "<!--"))
 (Cat (Star sp)
 (Cat (Str (lit "/SIGNAL"))
 (Cat (Star sp)
      (Str (lit "-->"))))).

(** The global pattern [ATTR_RE]: group 1 = [\w+], [=], Q,
    group 2 = [[^Q]*], Q. *)
Definition ATTR_RE : regex :=
  Cat (Grp 1 (Plus wd))
 (Cat (Chr 61) (Cat (Chr 34) (Cat (Grp 2 (Star not_quote)) (Chr 34)))).

(** [m[i]], the empty string standing for [undefined] where the source
    reads a group that always takes part in the match. *)
Definition grp (m : rmatch) (i : nat) : jsstring := default [] (group (m_caps m) i).

(** [attrs[key] = value] on an object literal.  Assigning a string to
    [__proto__] goes to the inherited setter, which ignores it; every
    other word creates or overwrites an own property. *)
Definition set_attr (a : Attrs) (key value : jsstring) : Attrs :=
  if bool_decide (key = lit "__proto__") then a else <[key := value]> a.

(** The [while ((m = ATTR_RE.exec(raw)) !== null)] loop.  Every match
    consumes at least four code units, so [length raw] rounds are more
    than the loop can make. *)
Fixpoint parseAttrs_loop (fuel : nat) (raw : jsstring) (lastIndex : nat)
    (a : Attrs) : Attrs :=
  match fuel with
  | O => a
  | S fuel' =>
      match exec_g ATTR_RE raw lastIndex with
      | (Some m, lastIndex') =>
          parseAttrs_loop fuel' raw lastIndex' (set_attr a (grp m 1) (grp m 2))
      | (None, _) => a
      end
  end.

(** [parseAttrs(raw)].  The loop always runs until [exec] fails, which
    leaves [ATTR_RE.lastIndex] at 0 for the next call. *)
Definition parseAttrs (raw : jsstring) : Attrs :=
  parseAttrs_loop (S (length raw)) raw 0 ∅.

(** The private fields of [class SignalParser]. *)
Record SignalParser := {
  pending : option (jsstring * Attrs);
  bodyLines : list jsstring
}.

(** [new SignalParser()]. *)
Definition fresh : SignalParser := {| pending := None; bodyLines := [] |}.

Definition LEGACY : jsstring := lit "<promise>COMPLETE</promise>".
Definition CLOSE_LITERAL : jsstring := lit "<!-- /SIGNAL -->".
Definition NL : jsstring := [10].

(** [feed(line)]: the parser after the call and the returned value
    ([None] for [null]). *)
Definition feed (p : SignalParser) (line : jsstring)
    : SignalParser * option Signal :=
  (* legacy ralph completion signal *)
  if includes line LEGACY then
    (p, Some {| type := lit "COMPLETE"; attrs := ∅; body := [] |})
  else
    (* closing tag first: [this.pending && SIGNAL_CLOSE.test(line)] *)
    match (match pending p with
           | Some pd => if test SIGNAL_CLOSE line then Some pd else None
           | None => None
           end) with
    | Some (ty, at_) =>
        ({| pending := None; bodyLines := [] |},
         Some {| type := ty; attrs := at_;
                 body := trim (join NL (bodyLines p)) |})
    | None =>
        (* opening tag *)
        match exec SIGNAL_OPEN line with
        | Some open =>
            let type := grp open 1 in
            let attrs := parseAttrs (grp open 2) in
            if test SIGNAL_CLOSE line then
              (* self-closing *)
              let afterOpen :=
                slice_from line (m_index open + length (m_text open)) in
              let closeIdx := indexOf afterOpen CLOSE_LITERAL in
              let body := if (0 <=? closeIdx)%Z
                          then trim (slice_to afterOpen closeIdx) else [] in
              (p, Some {| type := type; attrs := attrs; body := body |})
            else
              (* start accumulating body *)
              ({| pending := Some (type, attrs); bodyLines := [] |}, None)
        | None =>
            (* accumulate body if inside a signal *)
            match pending p with
            | Some _ =>
                ({| pending := pending p; bodyLines := bodyLines p ++ [line] |},
                 None)
            | None => (p, None)
            end
        end
    end.

(** [reset()]. *)
Definition reset (p : SignalParser) : SignalParser :=
  {| pending := None; bodyLines := [] |}.

End Signals.
Export Signals.

(** ** The process runner ([src/agents/spawn.ts]) *)

Module Spawn.

Definition byte := N.

(** One [Uint8Array] delivered by [reader.read()]. *)
Definition chunk := list byte.

(** [TextDecoder] used with [{ stream: true }]: a transducer that is fed
    the bytes one after the other and keeps an incomplete sequence in its
    state between two calls of [decode]. *)
Record TextDecoder := {
  dstate : Type;
  dinit : dstate;
  dstep : dstate -> byte -> dstate * jsstring
}.

(** [decoder.decode(value, { stream: true })]. *)
Fixpoint decode (dec : TextDecoder) (d : dstate dec) (value : chunk)
    : dstate dec * jsstring :=
  match value with
  | [] => (d, [])
  | b :: value' =>
      let (d1, t1) := dstep dec d b in
      let (d2, t2) := decode dec d1 value' in
      (d2, t1 ++ t2)
  end.

(** [TextDecoder] belongs to the platform, not to the repository; it is
    modelled after the UTF-8 decoder of the WHATWG Encoding standard.  Its
    state: the code point being assembled, the continuation bytes needed
    and seen, the bounds of the next byte, and the flag telling whether the
    first code point (a byte order mark is dropped there) has been seen. *)
Record utf8_state := {
  u_cp : N; u_needed : N; u_seen : N; u_lower : N; u_upper : N; u_bom_seen : bool
}.

Definition utf8_init : utf8_state :=
  {| u_cp := 0; u_needed := 0; u_seen := 0; u_lower := 128; u_upper := 191;
     u_bom_seen := false |}.

(** A code point as UTF-16 code units; a leading U+FEFF is dropped. *)
Definition utf8_emit (st : utf8_state) (cp : N) : utf8_state * jsstring :=
  let st' := {| u_cp := 0; u_needed := 0; u_seen := 0; u_lower := 128;
                u_upper := 191; u_bom_seen := true |} in
  if negb (u_bom_seen st) && (cp =? 65279) then (st', [])
  else if 65536 <=? cp then
    (st', [55296 + N.shiftr (cp - 65536) 10; 56320 + N.land (cp - 65536) 1023])
  else (st', [cp]).

(** A byte arriving when no sequence is in progress. *)
Definition utf8_lead (st : utf8_state) (b : byte) : utf8_state * jsstring :=
  if b <=? 127 then utf8_emit st b
  else if (194 <=? b) && (b <=? 223) then
    ({| u_cp := N.land b 31; u_needed := 1; u_seen := 0; u_lower := 128;
        u_upper := 191; u_bom_seen := u_bom_seen st |}, [])
  else if (224 <=? b) && (b <=? 239) then
    ({| u_cp := N.land b 15; u_needed := 2; u_seen := 0;
        u_lower := if b =? 224 then 160 else 128;
        u_upper := if b =? 237 then 159 else 191;
        u_bom_seen := u_bom_seen st |}, [])
  else if (240 <=? b) && (b <=? 244) then
    ({| u_cp := N.land b 7; u_needed := 3; u_seen := 0;
        u_lower := if b =? 240 then 144 else 128;
        u_upper := if b =? 244 then 143 else 191;
        u_bom_seen := u_bom_seen st |}, [])
  else utf8_emit st 65533.

Definition utf8_step (st : utf8_state) (b : byte) : utf8_state * jsstring :=
  if u_needed st =? 0 then utf8_lead st b
  else if (b <? u_lower st) || (u_upper st <? b) then
    (* an ill-formed sequence: U+FFFD, and the byte is read again *)
    let (st1, t1) := utf8_emit st 65533 in
    let (st2, t2) := utf8_lead st1 b in
    (st2, t1 ++ t2)
  else
    let cp := N.lor (N.shiftl (u_cp st) 6) (N.land b 63) in
    if u_seen st + 1 =? u_needed st then utf8_emit st cp
    else ({| u_cp := cp; u_needed := u_needed st; u_seen := u_seen st + 1;
             u_lower := 128; u_upper := 191; u_bom_seen := u_bom_seen st |}, []).

(** [new TextDecoder()]: UTF-8, replacement on errors, byte order mark
    dropped. *)
Definition utf8 : TextDecoder :=
  {| dstate := utf8_state; dinit := utf8_init; dstep := utf8_step |}.

(** The name of a function of the caller's. *)
Definition Handler := nat.

(** Why a promise is rejected. *)
Inductive Reason :=
| NotAFunction              (* the [TypeError] of calling a value that is no function *)
| ThrownBy (h : Handler).   (* what the function [h] threw, or rejected its promise with *)

(** What the run does to the world outside the runner, in program order. *)
Inductive Effect :=
| StdoutWrite (s : jsstring)             (* [process.stdout.write(s)] *)
| StderrWrite (s : jsstring)             (* [process.stderr.write(s)] *)
| Invoke (h : Handler) (sig : Signal)    (* a call [h(sig)] begins *)
| Reject (r : Reason).                   (* a promise that nothing awaits is left rejected *)

(** A callback of the options, by the effects of one call: what happens
    from the call to the point where the callback gives control back to
    the reader.  The readers call [onOutput?.(line)] and
    [onSignal?.(signal)] and drop what the call returns, so a promise that
    a callback returns is awaited by nobody and a rejection of it is
    handled by nobody; what the platform does about such a rejection is
    the platform's. *)
Definition Callback (A : Type) := A -> list Effect.

(** The fields of [SpawnOptions] the readers use. *)
Record SpawnOptions := {
  onSignal : option (Callback Signal);
  onOutput : option (Callback jsstring)
}.

(** [cb?.(x)]. *)
Definition call_opt {A} (cb : option (Callback A)) (x : A) : list Effect :=
  match cb with Some f => f x | None => [] end.

(** The variables [parser], [signals] and [outputLines] that the two
    readers close over, and the effects performed so far. *)
Record World := {
  parser : SignalParser;
  signals : list Signal;
  outputLines : list jsstring;
  trace : list Effect
}.

Definition world0 : World :=
  {| parser := fresh; signals := []; outputLines := []; trace := [] |}.

(** The standard-output branch for one line: record it, report it, feed
    it to the parser, record and report a completed signal. *)
Definition on_stdout_line (opts : SpawnOptions) (w : World) (line : jsstring)
    : World :=
  let (p', r) := feed (parser w) line in
  match r with
  | Some signal =>
      {| parser := p';
         signals := signals w ++ [signal];
         outputLines := outputLines w ++ [line];
         trace := trace w ++ call_opt (onOutput opts) line
                          ++ call_opt (onSignal opts) signal |}
  | None =>
      {| parser := p';
         signals := signals w;
         outputLines := outputLines w ++ [line];
         trace := trace w ++ call_opt (onOutput opts) line |}
  end.

(** The standard-error branch for one line. *)
Definition on_stderr_line (w : World) (line : jsstring) : World :=
  {| parser := parser w; signals := signals w; outputLines := outputLines w;
     trace := trace w ++ [StderrWrite (line ++ NL)] |}.

Definition on_line (opts : SpawnOptions) (isStdout : bool) (w : World)
    (line : jsstring) : World :=
  if isStdout then on_stdout_line opts w line else on_stderr_line w line.

(** The local variables [decoder] and [buffer] of one [readStream] call. *)
Record Reader (dec : TextDecoder) := {
  dst : dstate dec;
  buffer : jsstring
}.
Arguments dst {dec} _.
Arguments buffer {dec} _.

Definition reader0 (dec : TextDecoder) : Reader dec :=
  {| dst := dinit dec; buffer := [] |}.

(** One round of the [while (true)] loop, for a chunk that was read. *)
Definition read_chunk {dec} (opts : SpawnOptions) (isStdout : bool)
    (rw : Reader dec * World) (value : chunk) : Reader dec * World :=
  let (rd, w) := rw in
  let (d', text) := decode dec (dst rd) value in
  let (lines, last) := pop (split_nl (buffer rd ++ text)) in
  ({| dst := d'; buffer := default [] last |},
   fold_left (on_line opts isStdout) lines w).

(** After the loop: the remaining buffer. *)
Definition read_end {dec} (opts : SpawnOptions) (isStdout : bool)
    (rw : Reader dec * World) : World :=
  let (rd, w) := rw in
  if (0 <? length (buffer rd))%nat && isStdout
  then on_stdout_line opts w (buffer rd)
  else w.

(** [readStream(stream, isStdout)] run from start to end without the
    other reader in between; [None] is a [null] stream. *)
Definition readStream (dec : TextDecoder) (opts : SpawnOptions)
    (stream : option (list chunk)) (isStdout : bool) (w : World) : World :=
  match stream with
  | None => w
  | Some chunks =>
      read_end opts isStdout (fold_left (read_chunk opts isStdout) chunks (reader0 dec, w))
  end.

(** *** The two readers under [Promise.all]

    Each reader gives up control at [await reader.read()], so the two
    loops interleave chunk by chunk in an order the runner does not
    choose.  A schedule says which reader makes the next round. *)

Inductive Task (dec : TextDecoder) :=
| Running (rd : Reader dec) (rest : list chunk)
| Finished.
Arguments Running {dec} _ _.
Arguments Finished {dec}.

Definition start (dec : TextDecoder) (stream : option (list chunk)) : Task dec :=
  match stream with
  | None => Finished
  | Some chunks => Running (reader0 dec) chunks
  end.

(** One round of a reader: a chunk, or the end of its stream. *)
Definition step {dec} (opts : SpawnOptions) (isStdout : bool)
    (t : Task dec) (w : World) : Task dec * World :=
  match t with
  | Running rd (value :: rest) =>
      let (rd', w') := read_chunk opts isStdout (rd, w) value in
      (Running rd' rest, w')
  | Running rd [] => (Finished, read_end opts isStdout (rd, w))
  | Finished => (Finished, w)
  end.

(** A reader left alone until its stream ends. *)
Definition drain {dec} (opts : SpawnOptions) (isStdout : bool)
    (t : Task dec) (w : World) : World :=
  match t with
  | Running rd rest =>
      read_end opts isStdout (fold_left (read_chunk opts isStdout) rest (rd, w))
  | Finished => w
  end.

(** Both readers until both have finished: [true] lets the
    standard-output reader make a round, [false] the other one; when the
    schedule is used up the readers finish one after the other. *)
Fixpoint race {dec} (opts : SpawnOptions) (sched : list bool)
    (tout terr : Task dec) (w : World) : World :=
  match sched with
  | [] => drain opts false terr (drain opts true tout w)
  | true :: sched' =>
      let (tout', w') := step opts true tout w in race opts sched' tout' terr w'
  | false :: sched' =>
      let (terr', w') := step opts false terr w in race opts sched' tout terr' w'
  end.

(** What the child process does, as far as the runner sees it. *)
Record Child := {
  c_stdout : option (list chunk);   (* [proc.stdout] and what [read()] delivers *)
  c_stderr : option (list chunk);   (* [proc.stderr] *)
  c_exited : Z                      (* [await proc.exited] *)
}.

Module AgentResult.
(** [interface AgentResult]. *)
Record t := { exitCode : Z; stdout : jsstring; signals : list Signal }.
End AgentResult.

(** [spawnAgent(opts)] for a child and a schedule of the two readers: the
    result and the effects on the parent process. *)
Definition spawnAgent (opts : SpawnOptions) (child : Child) (sched : list bool)
    : AgentResult.t * list Effect :=
  let w := race opts sched (start utf8 (c_stdout child))
                (start utf8 (c_stderr child)) world0 in
  ({| AgentResult.exitCode := c_exited child;
      AgentResult.stdout := join NL (outputLines w);
      AgentResult.signals := signals w |},
   trace w).

End Spawn.
Export Spawn.

(** ** The monitor ([src/agents/monitor.ts]) *)

Module Monitor.

(** How a call of a function ends. *)
Inductive Completion :=
| Returns    (* it returns a value, or a promise that is fulfilled *)
| Throws     (* it throws *)
| Rejects.   (* it returns a promise that is rejected *)

(** What a function of the caller's writes to one of the parent's two
    output streams. *)
Inductive Print :=
| Out (s : jsstring)    (* to standard output, as [console.log] does *)
| Err (s : jsstring).   (* to the error stream *)

Definition print (p : Print) : Effect :=
  match p with Out s => StdoutWrite s | Err s => StderrWrite s end.

(** [type SignalHandler]: a function of the caller's, by its name and by
    what a call [f(signal)] does up to the point where it returns or
    throws: what it writes to the parent's streams, and how it ends.  What
    an async function does after its first [await] comes at a later turn of
    the event loop and is the caller's. *)
Record SignalHandler := {
  fn_name : Handler;
  fn_prints : Signal -> list Print;
  fn_ends : Signal -> Completion
}.

(** What reading a property gives, as far as the monitor tells values
    apart: it tests the value for truth and then calls it. *)
Inductive Value :=
| Undefined                       (* [undefined], or another falsy value *)
| Function (f : SignalHandler)    (* a function *)
| Other.                          (* a truthy value that is no function *)

(** The fields of [MonitorOptions] that the monitor itself reads; a field
    left out is [None].  [handlers] holds the own properties of the object
    passed in. *)
Record MonitorOptions := {
  passthrough : option bool;
  handlers : option (gmap jsstring Value);
  onAnySignal : option SignalHandler
}.

(** [handlers[key]]: an own property of the object, or else what its
    prototype chain holds under the name.  [proto] gives the latter
    ([Undefined] where the chain holds nothing); for an object literal and
    for the default [{}] the chain is [Object.prototype], which belongs to
    the platform: it answers [constructor], [toString], [valueOf] and the
    like with functions and [__proto__] with an object. *)
Definition get_property (proto : jsstring -> Value) (hs : gmap jsstring Value)
    (key : jsstring) : Value :=
  match hs !! key with
  | Some own => own
  | None => proto key
  end.

(** A call [f(signal)] up to its end: the call begins and the function
    writes what it writes. *)
Definition invoke (f : SignalHandler) (signal : Signal) : list Effect :=
  Invoke (fn_name f) signal :: map print (fn_prints f signal).

(** The [onSignal] arrow function.  It is async, so nothing it does throws
    into the reader: where its body throws, the promise it returned is
    rejected and the rest of the body is not run.  The body calls the
    catch-all and drops what the call returns; it reads the property of
    [handlers] named by the signal's type and, when the value is truthy,
    calls it and awaits what the call returns, so that its own promise is
    rejected when that one is.  Both calls are made before the arrow
    function first gives control back. *)
Definition dispatch (proto : jsstring -> Value) (onAny : option SignalHandler)
    (hs : gmap jsstring Value) : Callback Signal :=
  fun signal =>
    let rest :=
      match get_property proto hs (type signal) with
      | Undefined => []
      | Function handler =>
          invoke handler signal
          ++ match fn_ends handler signal with
             | Returns => []
             | Throws | Rejects => [Reject (ThrownBy (fn_name handler))]
             end
      | Other => [Reject NotAFunction]
      end in
    match onAny with
    | Some f =>
        invoke f signal
        ++ match fn_ends f signal with
           | Returns => rest
           | Throws => [Reject (ThrownBy (fn_name f))]
           | Rejects => Reject (ThrownBy (fn_name f)) :: rest
           end
    | None => rest
    end.

(** The [onOutput] arrow function. *)
Definition echo : Callback jsstring := fun line => [StdoutWrite (line ++ NL)].

(** The options [monitorAgent] hands to [spawnAgent]. *)
Definition spawn_options (proto : jsstring -> Value) (opts : MonitorOptions)
    : SpawnOptions :=
  let passthrough := default true (passthrough opts) in
  let handlers := default ∅ (handlers opts) in
  {| onOutput := if passthrough then Some echo else None;
     onSignal := Some (dispatch proto (onAnySignal opts) handlers) |}.

(** [monitorAgent(opts)], on a platform whose prototype chain for the
    handlers object is [proto]. *)
Definition monitorAgent (proto : jsstring -> Value) (opts : MonitorOptions)
    (child : Child) (sched : list bool) : AgentResult.t * list Effect :=
  spawnAgent (spawn_options proto opts) child sched.

End Monitor.
Export Monitor.

(** ** Runs of the parser and of the runner *)

Module Runs.

(** The double quote. *)
Definition Q : jsstring := [34].

(** The signal of the legacy completion marker. *)
Definition COMPLETE_SIGNAL : Signal :=
  {| type := lit "COMPLETE"; attrs := ∅; body := [] |}.

(** [feed] called on the lines of a list, one after the other: the parser
    at the end and what each call returned. *)
Fixpoint feed_lines (p : SignalParser) (lines : list jsstring)
    : SignalParser * list (option Signal) :=
  match lines with
  | [] => (p, [])
  | line :: rest =>
      let (p1, r) := feed p line in
      let (p2, rs) := feed_lines p1 rest in
      (p2, r :: rs)
  end.

(** A call of one of the two methods of [SignalParser]. *)
Inductive Call := Feed (line : jsstring) | Reset.

Definition call (p : SignalParser) (c : Call) : SignalParser :=
  match c with
  | Feed line => fst (feed p line)
  | Reset => reset p
  end.

Definition calls (p : SignalParser) (cs : list Call) : SignalParser :=
  fold_left call cs p.

(** No body text is held while no block is open. *)
Definition idle_body_empty (p : SignalParser) : Prop :=
  pending p = None -> bodyLines p = [].

(** The lines of a text as the specification words them: the text is cut
    at every newline; [scan cur s] gives the lines completed in [s], the
    first one begun by [cur], and the partial line left after the last
    newline. *)
Fixpoint scan (cur : jsstring) (s : jsstring) : list jsstring * jsstring :=
  match s with
  | [] => ([], cur)
  | c :: s' =>
      if c =? 10 then let (ls, r) := scan [] s' in (cur :: ls, r)
      else scan (cur ++ [c]) s'
  end.

(** The lines completed by a newline. *)
Definition complete_lines (text : jsstring) : list jsstring := fst (scan [] text).

(** The lines completed by a newline, and the partial line at the end of
    the text when it is not empty. *)
Definition text_lines (text : jsstring) : list jsstring :=
  let (ls, r) := scan [] text in
  ls ++ (if (0 <? length r)%nat then [r] else []).

(** All the bytes of a stream decoded in one go. *)
Definition stream_text (dec : TextDecoder) (chunks : list chunk) : jsstring :=
  snd (decode dec (dinit dec) (concat chunks)).

(** The text a child writes on a stream that may be missing. *)
Definition child_text (stream : option (list chunk)) : jsstring :=
  match stream with
  | Some chunks => stream_text utf8 chunks
  | None => []
  end.

Definition is_stderr_write (e : Effect) : bool :=
  match e with StderrWrite _ => true | _ => false end.

(** The effects of a run without the writes to the parent's error stream. *)
Definition without_stderr (tr : list Effect) : list Effect :=
  List.filter (fun e => negb (is_stderr_write e)) tr.

(** The handler calls of a run, in order. *)
Definition invocations (tr : list Effect) : list (Handler * Signal) :=
  omap (fun e => match e with Invoke h sig => Some (h, sig) | _ => None end) tr.

(** What a run wrote to the parent's standard output, in order. *)
Definition stdout_writes (tr : list Effect) : list jsstring :=
  omap (fun e => match e with StdoutWrite s => Some s | _ => None end) tr.

(** What the standard-output reader alone decides of a world. *)
Definition view (w : World)
    : SignalParser * list Signal * list jsstring * list Effect :=
  (parser w, signals w, outputLines w, without_stderr (trace w)).

(** What a function wrote to the parent's standard output. *)
Definition outs (prints : list Print) : list jsstring :=
  omap (fun p => match p with Out s => Some s | Err _ => None end) prints.

(** The functions the monitor calls for one signal, in order: the
    catch-all when there is one; then, unless the catch-all threw, the
    function found under the signal's type, among the registered handlers
    first and up the prototype chain after. *)
Definition called (proto : jsstring -> Value) (opts : MonitorOptions)
    (sig : Signal) : list SignalHandler :=
  let specific :=
    match (match default ∅ (handlers opts) !! type sig with
           | Some own => own
           | None => proto (type sig)
           end) with
    | Function handler => [handler]
    | _ => []
    end in
  match onAnySignal opts with
  | Some f => f :: match fn_ends f sig with Throws => [] | _ => specific end
  | None => specific
  end.

(** The same calls by name and argument. *)
Definition calls_for (proto : jsstring -> Value) (opts : MonitorOptions)
    (sig : Signal) : list (Handler * Signal) :=
  map (fun h => (fn_name h, sig)) (called proto opts sig).

(** What the calls made for one signal write to standard output. *)
Definition printed (proto : jsstring -> Value) (opts : MonitorOptions)
    (sig : Signal) : list jsstring :=
  flat_map (fun h => outs (fn_prints h sig)) (called proto opts sig).

(** The promises of the [onSignal] callback that a run left rejected. *)
Definition rejections (tr : list Effect) : list Reason :=
  omap (fun e => match e with Reject r => Some r | _ => None end) tr.

(** *** Streams used as examples *)

(** The bytes of an ASCII text. *)
Definition bytes (s : string) : chunk := lit s.

(** One chunk per byte. *)
Definition byte_at_a_time (data : chunk) : list chunk := map (fun b => [b]) data.

(** No callbacks. *)
Definition quiet : SpawnOptions := {| onSignal := None; onOutput := None |}.

(** Scenario 2 of the specification: one block on three lines. *)
Definition scenario2 : chunk :=
  bytes "<!-- SIGNAL:TASK_COMPLETE task=" ++ [34] ++ bytes "T1" ++ [34]
  ++ bytes " -->" ++ [10] ++ bytes "Done" ++ [10] ++ bytes "<!-- /SIGNAL -->".

(** A function that writes a tag and the signal's type on a line of
    standard output, as the callers of the repository do with
    [console.log]. *)
Definition logger (n : Handler) (tag : string) : SignalHandler :=
  {| fn_name := n;
     fn_prints := fun sig => [Out (lit tag ++ type sig ++ NL)];
     fn_ends := fun _ => Returns |}.

(** A function of the platform that writes nothing. *)
Definition builtin (n : Handler) (ends : Completion) : SignalHandler :=
  {| fn_name := n; fn_prints := fun _ => []; fn_ends := fun _ => ends |}.

(** Three names of [Object.prototype] as a call without a receiver meets
    them: [constructor] returns its argument, [valueOf] throws for want of
    a receiver, and [__proto__] gives the prototype object, which is no
    function. *)
Definition example_prototype (key : jsstring) : Value :=
  if bool_decide (key = lit "constructor") then Function (builtin 100%nat Returns)
  else if bool_decide (key = lit "valueOf") then Function (builtin 101%nat Throws)
  else if bool_decide (key = lit "__proto__") then Other
  else Undefined.

(** A monitor with a catch-all and one handler, both of which print. *)
Definition example_monitor : MonitorOptions :=
  {| passthrough := None;
     handlers := Some {[ lit "TASK_COMPLETE" := Function (logger 7%nat "done: ") ]};
     onAnySignal := Some (logger 1%nat "signal: ") |}.

(** A child that writes scenario 2 on standard output and two lines on
    standard error. *)
Definition example_child : Child :=
  {| c_stdout := Some [bytes "hello"; [10]; scenario2];
     c_stderr := Some [bytes "warn: a" ++ [10] ++ bytes "fatal: b"];
     c_exited := 0 |}.

(** A child whose signals are of a registered type, of a type nobody
    registered, and of three types that name properties of
    [Object.prototype]. *)
Definition prototype_child : Child :=
  {| c_stdout :=
       Some [bytes "hello"; [10]; scenario2; [10];
             bytes "<!-- SIGNAL:BLOCKED --> stuck <!-- /SIGNAL -->"; [10];
             bytes "<!-- SIGNAL:constructor --> <!-- /SIGNAL -->"; [10];
             bytes "<!-- SIGNAL:valueOf --> <!-- /SIGNAL -->"; [10];
             bytes "<!-- SIGNAL:__proto__ --> <!-- /SIGNAL -->"];
     c_stderr := Some [bytes "warn: a" ++ [10]];
     c_exited := 0 |}.

End Runs.
Export Runs.

(** ** The adapters ([src/agents/adapters]) and the Ralph loop's test *)

Module Callers.

(** [interface AgentAdapter] of [spawn.ts]; [buildCommand] takes no
    argument and returns a fixed array. *)
Record AgentAdapter := {
  name : jsstring;
  buildCommand : list jsstring;
  stdin : bool
}.

Definition claude : AgentAdapter :=
  {| name := lit "claude";
     buildCommand := [lit "claude"; lit "--dangerously-skip-permissions"; lit "--print"];
     stdin := true |}.

Definition amp : AgentAdapter :=
  {| name := lit "amp";
     buildCommand := [lit "amp"; lit "--dangerously-allow-all"];
     stdin := true |}.

Definition codex : AgentAdapter :=
  {| name := lit "codex";
     buildCommand := [lit "codex"; lit "--full-auto"; lit "--quiet"];
     stdin := true |}.

Definition gemini : AgentAdapter :=
  {| name := lit "gemini"; buildCommand := [lit "gemini"]; stdin := true |}.

(** The object [adapters]: its own properties, in the order of the
    literal (the order [Object.keys] gives). *)
Definition adapters : list (jsstring * AgentAdapter) :=
  [(lit "claude", claude); (lit "amp", amp); (lit "codex", codex);
   (lit "gemini", gemini)].

(** An own property of an object given by its entries. *)
Fixpoint own_property {A} (entries : list (jsstring * A)) (key : jsstring)
    : option A :=
  match entries with
  | [] => None
  | (k, v) :: rest => if bool_decide (k = key) then Some v else own_property rest key
  end.

(** What [getAdapter] does: it returns an adapter, returns a value found
    on [Object.prototype] (every such value is an object or a function, so
    it passes the [!adapter] test), or throws. *)
Inductive Got :=
| Adapter (a : AgentAdapter)
| Inherited (key : jsstring)
| Thrown (message : jsstring).

(** [getAdapter(name)].  [inherited] tells the property names of
    [Object.prototype], which belong to the platform. *)
Definition getAdapter (inherited : jsstring -> bool) (tool : jsstring) : Got :=
  match own_property adapters tool with
  | Some adapter => Adapter adapter
  | None =>
      if inherited tool then Inherited tool
      else
        let available := join (lit ", ") (map fst adapters) in
        Thrown (lit "Unknown tool " ++ [34] ++ tool ++ [34]
                ++ lit ". Available: " ++ available)
  end.

(** [signals.some((s) => s.type === t)]. *)
Definition some_of_type (t : jsstring) (sigs : list Signal) : bool :=
  existsb (fun s => bool_decide (type s = t)) sigs.

(** The test [hasComplete] of the Ralph loop on the result of one
    iteration. *)
Definition hasComplete (result : AgentResult.t) : bool :=
  some_of_type (lit "COMPLETE") (AgentResult.signals result)
  || includes (AgentResult.stdout result) LEGACY.

End Callers.
Export Callers.

(** ** Notions used to state the further properties *)

Module Notions.

(** A string that neither starts nor ends with white space. *)
Definition no_edge_space (s : jsstring) : Prop :=
  (forall c, head s = Some c -> is_space c = false) /\
  (forall c, last s = Some c -> is_space c = false).

(** A text without its final newline, when it has one. *)
Definition chomp (text : jsstring) : jsstring :=
  match reverse text with
  | c :: r => if c =? 10 then reverse r else text
  | [] => text
  end.

(** The signals among the values [feed] returned. *)
Definition returned (rs : list (option Signal)) : list Signal := omap id rs.

(** What a pattern matches, read off the pattern: [Matches r w n] says
    that [r] matches exactly the text [w] and that doing so records the
    captures [n], the most recent first. *)
Inductive Matches : regex -> jsstring -> caps -> Prop :=
| M_eps : Matches Eps [] []
| M_chr c : Matches (Chr c) [c] []
| M_cls p c : p c = true -> Matches (Cls p) [c] []
| M_cat r1 r2 w1 w2 n1 n2 :
    Matches r1 w1 n1 -> Matches r2 w2 n2 ->
    Matches (Cat r1 r2) (w1 ++ w2) (n2 ++ n1)
| M_star_nil r : Matches (Star r) [] []
| M_star_cons r w1 w2 n1 n2 :
    Matches r w1 n1 -> w1 <> [] -> Matches (Star r) w2 n2 ->
    Matches (Star r) (w1 ++ w2) (n2 ++ n1)
| M_grp i r w n : Matches r w n -> Matches (Grp i r) w ((i, w) :: n).

(** Patterns without capturing groups. *)
Fixpoint group_free (r : regex) : bool :=
  match r with
  | Eps | Chr _ | Cls _ => true
  | Cat r1 r2 => group_free r1 && group_free r2
  | Star r' => group_free r'
  | Grp _ _ => false
  end.

(** A word: one or more of the characters of [\w]. *)
Definition word (s : jsstring) : Prop :=
  s <> [] /\ Forall (fun c => is_word c = true) s.

(** White space only. *)
Definition blank (s : jsstring) : Prop := Forall (fun c => is_space c = true) s.

(** No double quote. *)
Definition quote_free (s : jsstring) : Prop := Forall (fun c => c <> 34) s.

(** [sub] occurs somewhere in [s]. *)
Definition occurs_in (sub s : jsstring) : Prop := exists a b, s = a ++ sub ++ b.

(** One attribute pair as it is written in an open marker, without the
    white space before it: the key, [=], and the value between double
    quotes. *)
Definition attr_text (key value : jsstring) : jsstring :=
  key ++ [61; 34] ++ value ++ [34].

(** Attribute pairs written one after the other, a space before each. *)
Fixpoint attrs_text (pairs : list (jsstring * jsstring)) : jsstring :=
  match pairs with
  | [] => []
  | (key, value) :: rest => [32] ++ attr_text key value ++ attrs_text rest
  end.

(** The attributes that assigning the pairs in order leaves. *)
Definition attrs_of (pairs : list (jsstring * jsstring)) : Attrs :=
  fold_left (fun a kv => set_attr a (fst kv) (snd kv)) pairs ∅.

(** An open marker in the form of the protocol description. *)
Definition open_marker (ty : jsstring) (pairs : list (jsstring * jsstring))
    : jsstring :=
  lit "<!-- SIGNAL:" ++ ty ++ attrs_text pairs ++ lit " -->".

(** One attribute pair inside [SIGNAL_OPEN]: white space, a word, [=],
    and a quote-free text between double quotes. *)
Definition ATTR_PAIR : regex :=
  Cat (Plus sp) (Cat (Plus wd)
    (Cat (Chr 61) (Cat (Chr 34) (Cat (Star not_quote) (Chr 34))))).

(** Where a run of characters of a class ends: at the end of the input or
    before a character outside the class. *)
Definition stops (p : char -> bool) (s : jsstring) : Prop :=
  match s with
  | [] => True
  | c :: _ => p c = false
  end.

(** A piece of an agent's output: a line that is no part of a block, a
    block on several lines, or a block on one line. *)
Inductive Item :=
| Noise (line : jsstring)
| Block (ty : jsstring) (pairs : list (jsstring * jsstring))
        (body_lines : list jsstring)
| Inline (ty : jsstring) (pairs : list (jsstring * jsstring)) (text : jsstring).

(** The lines of an item as the protocol writes them. *)
Definition item_lines (it : Item) : list jsstring :=
  match it with
  | Noise line => [line]
  | Block ty pairs body_lines =>
      open_marker ty pairs :: body_lines ++ [CLOSE_LITERAL]
  | Inline ty pairs text => [open_marker ty pairs ++ text ++ CLOSE_LITERAL]
  end.

(** The signal an item stands for, if any. *)
Definition item_signals (it : Item) : list Signal :=
  match it with
  | Noise _ => []
  | Block ty pairs body_lines =>
      [{| type := ty; attrs := attrs_of pairs;
          body := trim (join NL body_lines) |}]
  | Inline ty pairs text =>
      [{| type := ty; attrs := attrs_of pairs; body := trim text |}]
  end.

Definition pairs_ok (pairs : list (jsstring * jsstring)) : Prop :=
  Forall (fun kv => word (fst kv) /\ quote_free (snd kv)) pairs.

(** The items whose lines cannot be taken for anything else: no line
    holds the legacy literal; a noise line holds no open marker; the open
    line of a block holds no close marker and its body lines hold neither
    marker; the text of a one-line block holds no [<]. *)
Definition item_ok (it : Item) : Prop :=
  match it with
  | Noise line => includes line LEGACY = false /\ exec SIGNAL_OPEN line = None
  | Block ty pairs body_lines =>
      word ty /\ pairs_ok pairs /\
      includes (open_marker ty pairs) LEGACY = false /\
      test SIGNAL_CLOSE (open_marker ty pairs) = false /\
      Forall (fun l => includes l LEGACY = false /\ test SIGNAL_CLOSE l = false
                       /\ exec SIGNAL_OPEN l = None) body_lines
  | Inline ty pairs text =>
      word ty /\ pairs_ok pairs /\ (60 ∉ text) /\
      includes (open_marker ty pairs ++ text ++ CLOSE_LITERAL) LEGACY = false
  end.

(** What a run wrote to the parent's error stream, in order. *)
Definition stderr_writes (tr : list Effect) : list jsstring :=
  omap (fun e => match e with StderrWrite s => Some s | _ => None end) tr.

(** Callbacks that do not write to the parent's error stream. *)
Definition quiet_on_stderr (opts : SpawnOptions) : Prop :=
  (forall line, stderr_writes (call_opt (onOutput opts) line) = []) /\
  (forall sig, stderr_writes (call_opt (onSignal opts) sig) = []).

(** Pairs and items used as examples. *)
Definition example_pairs : list (jsstring * jsstring) :=
  [(lit "task", lit "T1"); (lit "__proto__", lit "x"); (lit "task", lit "T2")].

Definition example_items : list Item :=
  [Noise (lit "working on it");
   Block (lit "TASK_COMPLETE") [(lit "task", lit "T1")] [lit "Done"; lit ""];
   Noise (lit "<!-- /SIGNAL -->");
   Inline (lit "CHECKPOINT") [(lit "type", lit "decision")] (lit " pick one ")].

(** A signal as the protocol writes it: the type is a word, every
    attribute key is a word and no attribute value holds a double quote. *)
Definition well_formed (sig : Signal) : Prop :=
  word (type sig) /\
  forall key value, attrs sig !! key = Some value -> word key /\ quote_free value.

(** The block a parser holds open, if any, has a well-formed head. *)
Definition pending_well_formed (p : SignalParser) : Prop :=
  forall ty at_, pending p = Some (ty, at_) ->
    word ty /\ forall key value, at_ !! key = Some value -> word key /\ quote_free value.

End Notions.
Export Notions.

(** * Properties *)

(** ** Strings *)

Module JsStringFacts.

Lemma starts_with_app (pat b : jsstring) : starts_with pat (pat ++ b) = true.
Proof.
  induction pat as [|c pat IH]; simpl; [done|].
  by rewrite N.eqb_refl, IH.
Qed.

Lemma starts_with_inv (pat s : jsstring) :
  starts_with pat s = true -> s = pat ++ drop (length pat) s.
Proof.
  revert s. induction pat as [|c pat IH]; intros [|d s]; simpl; try done.
  intros [Hc Hs]%andb_prop. apply N.eqb_eq in Hc as ->.
  f_equal. by apply IH.
Qed.

Lemma indexOf_from_eq (s pat : jsstring) (i : Z) :
  indexOf_from s pat i =
  if starts_with pat s then i
  else match s with
       | [] => (-1)%Z
       | _ :: s' => indexOf_from s' pat (i + 1)%Z
       end.
Proof. by destruct s. Qed.

Lemma indexOf_from_found (a pat b : jsstring) (i : Z) :
  (i <= indexOf_from (a ++ pat ++ b) pat i)%Z.
Proof.
  revert i. induction a as [|c a IH]; intros i; rewrite indexOf_from_eq.
  - simpl. rewrite starts_with_app. lia.
  - simpl app. destruct (starts_with pat (c :: a ++ pat ++ b)); [lia|].
    specialize (IH (i + 1)%Z). lia.
Qed.

(** A string that contains [pat] somewhere [includes] it. *)
Lemma includes_app (a pat b : jsstring) : includes (a ++ pat ++ b) pat = true.
Proof.
  unfold includes, indexOf. apply Z.leb_le. apply indexOf_from_found.
Qed.

(** A non-negative [indexOf] points at an occurrence. *)
Lemma indexOf_from_inv (s pat : jsstring) (i k : Z) :
  (0 <= i)%Z -> (0 <= k)%Z -> indexOf_from s pat i = k ->
  (i <= k)%Z /\
  s = take (Z.to_nat (k - i)) s ++ pat ++ drop (Z.to_nat (k - i) + length pat) s.
Proof.
  revert i. induction s as [|c s IH]; intros i Hi Hk; rewrite indexOf_from_eq.
  - destruct (starts_with pat []) eqn:E; [|lia].
    intros ->. split; [lia|]. rewrite Z.sub_diag. simpl.
    destruct pat; [done | discriminate].
  - destruct (starts_with pat (c :: s)) eqn:E.
    + intros ->. split; [lia|]. rewrite Z.sub_diag.
      by apply starts_with_inv in E.
    + intros H. destruct (IH (i + 1)%Z) as [Hle Hs]; [lia | done | done |].
      split; [lia|].
      replace (Z.to_nat (k - i)) with (S (Z.to_nat (k - (i + 1)))) by lia.
      simpl. by rewrite <- Hs.
Qed.

Lemma indexOf_inv (s pat : jsstring) (k : Z) :
  (0 <= k)%Z -> indexOf s pat = k ->
  s = take (Z.to_nat k) s ++ pat ++ drop (Z.to_nat k + length pat) s.
Proof.
  intros Hk H. destruct (indexOf_from_inv s pat 0 k) as [_ Hs]; [lia | done | done |].
  by rewrite Z.sub_0_r in Hs.
Qed.

End JsStringFacts.

(** ** The matcher *)

Module RegexFacts.

(** A greedy star over a character class, one input character at a time. *)
Lemma run_star_cls_cons {A} (p : char -> bool) (c : char) (s : jsstring)
    (cs : caps) (k : jsstring -> caps -> option A) :
  run (Star (Cls p)) (c :: s) cs k =
  if p c then
    match run (Star (Cls p)) s cs k with
    | Some x => Some x
    | None => k (c :: s) cs
    end
  else k (c :: s) cs.
Proof.
  simpl. destruct (p c); [|done].
  assert ((length s <? S (length s))%nat = true) as -> by (apply Nat.ltb_lt; lia).
  done.
Qed.

(** A position where the pattern matches makes [exec] succeed on every
    string that ends with the text from that position on. *)
Lemma exec_from_app (r : regex) (a b : jsstring) (i : nat) :
  is_Some (run r b [] (fun s' cs => Some (s', cs))) ->
  is_Some (exec_from r (a ++ b) i).
Proof.
  intros Hb. revert i. induction a as [|c a IH]; intros i.
  - simpl app. destruct b; simpl; destruct Hb as [[s' cs] ->]; eauto.
  - simpl. destruct (run r (c :: a ++ b) [] _) as [[s' cs]|]; eauto.
Qed.

Lemma run_star_cls_stop {A} (p : char -> bool) (c : char) (s : jsstring)
    (cs : caps) (k : jsstring -> caps -> option A) :
  p c = false -> run (Star (Cls p)) (c :: s) cs k = k (c :: s) cs.
Proof. intros H. by rewrite run_star_cls_cons, H. Qed.

Lemma run_cat {A} (r1 r2 : regex) (s : jsstring) (cs : caps)
    (k : jsstring -> caps -> option A) :
  run (Cat r1 r2) s cs k = run r1 s cs (fun s' cs' => run r2 s' cs' k).
Proof. done. Qed.

(** A literal pattern consumes exactly its own text. *)
Lemma run_str_app {A} (l s : jsstring) (cs : caps)
    (k : jsstring -> caps -> option A) :
  run (Str l) (l ++ s) cs k = k s cs.
Proof.
  induction l as [|c l IH]; simpl; [done|].
  by rewrite N.eqb_refl.
Qed.

(** The close pattern matches the canonical close marker, whatever
    follows it. *)
Lemma close_literal_matches (post : jsstring) :
  run SIGNAL_CLOSE (CLOSE_LITERAL ++ post) [] (fun s' cs => Some (s', cs))
  = Some (post, []).
Proof.
  change (CLOSE_LITERAL ++ post)
    with (lit "<!--" ++ 32 :: lit "/SIGNAL" ++ 32 :: lit "-->" ++ post).
  unfold SIGNAL_CLOSE, sp.
  rewrite run_cat, run_str_app, run_cat.
  rewrite run_star_cls_cons. change (is_space 32) with true. cbv iota.
  change (lit "/SIGNAL" ++ 32 :: lit "-->" ++ post)
    with (47 :: lit "SIGNAL" ++ 32 :: lit "-->" ++ post).
  rewrite run_star_cls_stop by done.
  change (47 :: lit "SIGNAL" ++ 32 :: lit "-->" ++ post)
    with (lit "/SIGNAL" ++ 32 :: lit "-->" ++ post).
  rewrite run_cat, run_str_app, run_cat.
  rewrite run_star_cls_cons. change (is_space 32) with true. cbv iota.
  change (lit "-->" ++ post) with (45 :: lit "->" ++ post).
  rewrite run_star_cls_stop by done.
  change (45 :: lit "->" ++ post) with (lit "-->" ++ post).
  by rewrite run_str_app.
Qed.

(** A line that contains the canonical close marker passes
    [SIGNAL_CLOSE.test]. *)
Lemma test_close_literal (pre post : jsstring) :
  test SIGNAL_CLOSE (pre ++ CLOSE_LITERAL ++ post) = true.
Proof.
  unfold test, exec.
  destruct (exec_from_app SIGNAL_CLOSE pre (CLOSE_LITERAL ++ post) 0) as [m ->]; [|done].
  rewrite close_literal_matches. eauto.
Qed.

(** *** The fuel of the star loop is never used up *)

Section Engine.
Context {A : Type}.
Implicit Types (k : jsstring -> caps -> option A) (s : jsstring) (cs : caps).

Lemma star_loop_ext body1 body2 k1 k2 fuel s cs :
  (forall s' cs' k k', (forall s'' cs'', k s'' cs'' = k' s'' cs'') ->
                       body1 s' cs' k = body2 s' cs' k') ->
  (forall s' cs', k1 s' cs' = k2 s' cs') ->
  star_loop body1 k1 fuel s cs = star_loop body2 k2 fuel s cs.
Proof.
  intros Hb Hk. revert s cs. induction fuel as [|fuel IH]; intros s cs; simpl.
  - apply Hk.
  - rewrite (Hb s cs _ (fun s' cs' =>
               if (length s' <? length s)%nat
               then star_loop body2 k2 fuel s' cs' else None)).
    + by rewrite Hk.
    + intros s'' cs''. by rewrite IH.
Qed.

(** The matcher depends on its continuation only through its values. *)
Lemma run_ext (r : regex) s cs k k' :
  (forall s' cs', k s' cs' = k' s' cs') -> run r s cs k = run r s cs k'.
Proof.
  revert s cs k k'.
  induction r as [|c|p|r1 IH1 r2 IH2|r IH|i r IH]; intros s cs k k' Hk; simpl.
  - apply Hk.
  - destruct s as [|c' s]; [done|]. by rewrite Hk.
  - destruct s as [|c' s]; [done|]. by rewrite Hk.
  - apply IH1. intros s' cs'. by apply IH2.
  - apply star_loop_ext; [|done]. intros s' cs' k1 k2 H. by apply IH.
  - apply IH. intros s' cs'. apply Hk.
Qed.

(** A successful match has called its continuation on an input that is
    not longer, and shorter when the pattern consumes. *)
Lemma run_Some (r : regex) s cs k (x : A) :
  run r s cs k = Some x ->
  exists s' cs', k s' cs' = Some x /\ (length s' <= length s)%nat /\
                 (consuming r = true -> (length s' < length s)%nat).
Proof.
  revert s cs k.
  induction r as [|c|p|r1 IH1 r2 IH2|r IH|i r IH]; intros s cs k; simpl.
  - intros H. exists s, cs. repeat split; [done | lia | done].
  - destruct s as [|c' s]; [done|]. destruct (c =? c'); [|done].
    intros H. exists s, cs. simpl. repeat split; [done | lia | lia].
  - destruct s as [|c' s]; [done|]. destruct (p c'); [|done].
    intros H. exists s, cs. simpl. repeat split; [done | lia | lia].
  - intros H. apply IH1 in H as (s1 & cs1 & H & Hle1 & Hlt1).
    apply IH2 in H as (s2 & cs2 & H & Hle2 & Hlt2).
    exists s2, cs2. split; [done|]. split; [lia|].
    intros [Hc|Hc]%orb_prop; [specialize (Hlt1 Hc) | specialize (Hlt2 Hc)]; lia.
  - generalize (length s) at 1. intros fuel. revert s cs.
    induction fuel as [|fuel IHf]; intros s cs; simpl.
    + intros H. exists s, cs. repeat split; [done | lia | done].
    + destruct (run r s cs _) as [y|] eqn:E.
      * intros [= ->]. apply IH in E as (s1 & cs1 & E & Hle1 & _).
        destruct (length s1 <? length s)%nat; [|done].
        apply IHf in E as (s2 & cs2 & E & Hle2 & _).
        exists s2, cs2. repeat split; [done | lia | done].
      * intros H. exists s, cs. repeat split; [done | lia | done].
  - intros H. apply IH in H as (s1 & cs1 & H & Hle & Hlt). eauto.
Qed.

(** More fuel than the length of the input changes nothing: the loop
    ends because an iteration fails, not because the fuel is gone. *)
Lemma star_loop_fuel (r : regex) k fuel1 fuel2 s cs :
  (length s <= fuel1)%nat -> (length s <= fuel2)%nat ->
  star_loop (fun s' cs' k' => run r s' cs' k') k fuel1 s cs
  = star_loop (fun s' cs' k' => run r s' cs' k') k fuel2 s cs.
Proof.
  revert fuel2 s cs. induction fuel1 as [|fuel1 IH]; intros fuel2 s cs H1 H2.
  - destruct s; [|simpl in H1; lia]. destruct fuel2 as [|fuel2]; [done|]. simpl.
    destruct (run r [] cs _) as [y|] eqn:E; [|done].
    apply run_Some in E as (s1 & cs1 & E & _). by destruct s1.
  - destruct fuel2 as [|fuel2].
    + destruct s; [|simpl in H2; lia]. simpl.
      destruct (run r [] cs _) as [y|] eqn:E; [|done].
      apply run_Some in E as (s1 & cs1 & E & _). by destruct s1.
    + simpl. erewrite run_ext; [done|]. intros s' cs'. simpl.
      destruct (length s' <? length s)%nat eqn:E; [|done].
      apply Nat.ltb_lt in E. apply IH; lia.
Qed.

End Engine.

(** Where [exec] finds its match: not before the start of the search,
    inside the string, and not empty for a pattern that consumes. *)
Lemma exec_from_bounds (r : regex) (s : jsstring) (i : nat) (m : rmatch) :
  exec_from r s i = Some m ->
  (i <= m_index m)%nat /\
  (m_index m + length (m_text m) <= i + length s)%nat /\
  (consuming r = true -> (0 < length (m_text m))%nat).
Proof.
  revert i. induction s as [|c s IH]; intros i; simpl.
  - destruct (run r [] [] _) as [[s' cs]|] eqn:E; [|done].
    intros [= <-]. simpl.
    apply run_Some in E as (s1 & cs1 & [= -> ->] & Hle & Hlt).
    repeat split; [lia | lia |]. intros Hc. specialize (Hlt Hc). simpl in Hlt. lia.
  - destruct (run r (c :: s) [] _) as [[s' cs]|] eqn:E.
    + intros [= <-]. cbn [m_index m_text].
      apply run_Some in E as (s1 & cs1 & [= -> ->] & Hle & Hlt).
      rewrite length_take. simpl in *. repeat split; [lia | lia |].
      intros Hc. specialize (Hlt Hc). lia.
    + intros H. apply IH in H as (H1 & H2 & H3). repeat split; [lia | lia | done].
Qed.

End RegexFacts.

(** ** The signal parser *)

Module SignalsFacts.
Import JsStringFacts RegexFacts.

(** *** The attribute loop ends by itself *)

(** A match of [ATTR_RE] moves [lastIndex] forward, inside the string. *)
Lemma exec_g_attr_progress (raw : jsstring) (lastIndex lastIndex' : nat)
    (m : rmatch) :
  exec_g ATTR_RE raw lastIndex = (Some m, lastIndex') ->
  (lastIndex < lastIndex' <= length raw)%nat.
Proof.
  unfold exec_g. destruct (length raw <? lastIndex)%nat eqn:E; [done|].
  apply Nat.ltb_ge in E.
  destruct (exec_from ATTR_RE (drop lastIndex raw) lastIndex) as [m'|] eqn:Em; [|done].
  intros [= -> <-]. apply exec_from_bounds in Em as (H1 & H2 & H3).
  rewrite length_drop in H2. specialize (H3 eq_refl). lia.
Qed.

Lemma parseAttrs_loop_fuel (raw : jsstring) (fuel1 fuel2 lastIndex : nat)
    (a : Attrs) :
  (length raw - lastIndex < fuel1)%nat ->
  (length raw - lastIndex < fuel2)%nat ->
  parseAttrs_loop fuel1 raw lastIndex a = parseAttrs_loop fuel2 raw lastIndex a.
Proof.
  revert fuel2 lastIndex a.
  induction fuel1 as [|fuel1 IH]; intros fuel2 lastIndex a H1 H2; [lia|].
  destruct fuel2 as [|fuel2]; [lia|]. simpl.
  destruct (exec_g ATTR_RE raw lastIndex) as [[m|] lastIndex'] eqn:E; [|done].
  apply exec_g_attr_progress in E. apply IH; lia.
Qed.

(** [parseAttrs] with any amount of extra fuel is [parseAttrs]: the loop
    of the model stops because [exec] found no further pair, as the loop of
    the source does. *)
Lemma parseAttrs_fuel (raw : jsstring) (extra : nat) :
  parseAttrs_loop (S (length raw) + extra) raw 0 ∅ = parseAttrs raw.
Proof. apply parseAttrs_loop_fuel; lia. Qed.

(** The legacy marker is looked for before anything else. *)
Lemma feed_legacy (p : SignalParser) (line : jsstring) :
  includes line LEGACY = true -> feed p line = (p, Some COMPLETE_SIGNAL).
Proof. intros H. unfold feed. by rewrite H. Qed.

(** C2: a line that contains the legacy literal anywhere makes [feed]
    return the COMPLETE signal with no attributes and an empty body, in
    every parser state and whatever else the line holds; the parser is left
    as it was, so none of the later checks has run. *)
Theorem feed_legacy_complete (p : SignalParser) (pre post : jsstring) :
  feed p (pre ++ LEGACY ++ post)
  = (p, Some {| type := lit "COMPLETE"; attrs := ∅; body := [] |}).
Proof. apply feed_legacy, includes_app. Qed.

(** C5: with a block pending, a line that contains the legacy literal
    yields the COMPLETE signal and leaves the pending block and the
    accumulated body lines as they were: the block is neither closed nor
    dropped, and the line is not added to the body. *)
Theorem legacy_keeps_pending_block (ty : jsstring) (at_ : Attrs)
    (lines : list jsstring) (pre post : jsstring) :
  let p := {| pending := Some (ty, at_); bodyLines := lines |} in
  let (p', r) := feed p (pre ++ LEGACY ++ post) in
  pending p' = Some (ty, at_) /\ bodyLines p' = lines /\ r = Some COMPLETE_SIGNAL.
Proof. cbv zeta. by rewrite feed_legacy by apply includes_app. Qed.

(** What [feed] does with an open marker that is not closed on its line:
    it starts a block, whatever was pending. *)
Lemma feed_open (p : SignalParser) (line : jsstring) (m : rmatch) :
  includes line LEGACY = false ->
  test SIGNAL_CLOSE line = false ->
  exec SIGNAL_OPEN line = Some m ->
  feed p line
  = ({| pending := Some (grp m 1, parseAttrs (grp m 2)); bodyLines := [] |}, None).
Proof.
  intros Hl Hc Ho. unfold feed. rewrite Hl, Hc, Ho.
  by destruct (pending p) as [[ty at_]|].
Qed.

(** C1, as the code has it: with a block pending, a line without the
    legacy literal that matches the open-marker pattern and has no close
    marker starts a new block.  [feed] returns nothing, the pending block
    becomes the one of the new marker and the accumulated body is emptied. *)
Theorem open_while_pending_replaces_block (p : SignalParser) (ty : jsstring)
    (at_ : Attrs) (line : jsstring) (m : rmatch) :
  pending p = Some (ty, at_) ->
  includes line LEGACY = false ->
  test SIGNAL_CLOSE line = false ->
  exec SIGNAL_OPEN line = Some m ->
  feed p line
  = ({| pending := Some (grp m 1, parseAttrs (grp m 2)); bodyLines := [] |}, None).
Proof. intros _. apply feed_open. Qed.

Lemma open_while_pending_replaces_block_witness :
  feed {| pending := Some (lit "TASK_COMPLETE", ∅); bodyLines := [lit "x"] |}
       (lit "<!-- SIGNAL:BLOCKED -->")
  = ({| pending := Some (lit "BLOCKED", ∅); bodyLines := [] |}, None).
Proof.
  apply (open_while_pending_replaces_block _ (lit "TASK_COMPLETE") ∅ _
           {| m_index := 0; m_text := lit "<!-- SIGNAL:BLOCKED -->";
              m_caps := [(2%nat, []); (1%nat, lit "BLOCKED")] |});
    vm_compute; reflexivity.
Defined.

(** C1, as the claim states it, fails: the line is not added to the body
    and the pending block does not stay. *)
Lemma open_while_pending_not_body_text :
  let p := {| pending := Some (lit "TASK_COMPLETE", ∅); bodyLines := [lit "x"] |} in
  let line := lit "<!-- SIGNAL:BLOCKED -->" in
  is_Some (exec SIGNAL_OPEN line) /\
  test SIGNAL_CLOSE line = false /\
  bodyLines (fst (feed p line)) <> bodyLines p ++ [line] /\
  pending (fst (feed p line)) <> pending p.
Proof.
  split; [by vm_compute; eauto|]. split; [by vm_compute|].
  split; vm_compute; discriminate.
Qed.

(** What [feed] does with a body line of an open block. *)
Lemma feed_body (p : SignalParser) (line : jsstring) :
  is_Some (pending p) ->
  includes line LEGACY = false ->
  test SIGNAL_CLOSE line = false ->
  exec SIGNAL_OPEN line = None ->
  feed p line
  = ({| pending := pending p; bodyLines := bodyLines p ++ [line] |}, None).
Proof.
  intros [[ty at_] Hp] Hl Hc Ho. unfold feed. by rewrite Hl, Hp, Hc, Ho.
Qed.

(** What [feed] does with a close marker while a block is open. *)
Lemma feed_close (p : SignalParser) (ty : jsstring) (at_ : Attrs)
    (line : jsstring) :
  pending p = Some (ty, at_) ->
  includes line LEGACY = false ->
  test SIGNAL_CLOSE line = true ->
  feed p line
  = (fresh, Some {| type := ty; attrs := at_;
                    body := trim (join NL (bodyLines p)) |}).
Proof.
  intros Hp Hl Hc. unfold feed. by rewrite Hl, Hp, Hc.
Qed.

(** Body lines and then the close marker, fed to a parser with an open
    block. *)
Lemma feed_lines_body_close (ty : jsstring) (at_ : Attrs)
    (body_lines : list jsstring) (closeLine : jsstring) (acc : list jsstring) :
  Forall (fun l => includes l LEGACY = false /\ test SIGNAL_CLOSE l = false
                   /\ exec SIGNAL_OPEN l = None) body_lines ->
  includes closeLine LEGACY = false ->
  test SIGNAL_CLOSE closeLine = true ->
  feed_lines {| pending := Some (ty, at_); bodyLines := acc |}
             (body_lines ++ [closeLine])
  = (fresh, replicate (length body_lines) None
            ++ [Some {| type := ty; attrs := at_;
                        body := trim (join NL (acc ++ body_lines)) |}]).
Proof.
  intros Hb Hl Hc. revert acc.
  induction Hb as [|l ls (Hl1 & Hl2 & Hl3) _ IH]; intros acc.
  - simpl. rewrite (feed_close _ ty at_) by done. simpl.
    by rewrite app_nil_r.
  - simpl. rewrite feed_body by (simpl; eauto). simpl.
    rewrite IH. by rewrite <- app_assoc.
Qed.

(** C4, as the code has it: a multi-line block whose lines are all free of
    the legacy literal (an open-marker line without a close marker; body
    lines without close marker and open marker; a close-marker line), fed
    to a fresh parser, gives nothing on the open-marker line and on each
    body line, and on the close-marker line one Signal with the type and
    the attributes of the open marker and the body lines joined by newline
    and trimmed as its body; the parser is fresh again afterwards. *)
Theorem multiline_block_signal (openLine : jsstring) (m : rmatch)
    (body_lines : list jsstring) (closeLine : jsstring) :
  includes openLine LEGACY = false ->
  test SIGNAL_CLOSE openLine = false ->
  exec SIGNAL_OPEN openLine = Some m ->
  Forall (fun l => includes l LEGACY = false /\ test SIGNAL_CLOSE l = false
                   /\ exec SIGNAL_OPEN l = None) body_lines ->
  includes closeLine LEGACY = false ->
  test SIGNAL_CLOSE closeLine = true ->
  feed_lines fresh (openLine :: body_lines ++ [closeLine])
  = (fresh, None :: replicate (length body_lines) None
            ++ [Some {| type := grp m 1; attrs := parseAttrs (grp m 2);
                        body := trim (join NL body_lines) |}]).
Proof.
  intros Hl Hc Ho Hb Hl' Hc'. simpl.
  rewrite (feed_open _ _ m) by done.
  by rewrite feed_lines_body_close.
Qed.

Lemma multiline_block_signal_witness :
  feed_lines fresh
    [lit "<!-- SIGNAL:TASK_COMPLETE task=" ++ Q ++ lit "T1" ++ Q ++ lit " -->";
     lit "Done"; lit " and dusted ";
     lit "<!-- /SIGNAL -->"]
  = (fresh, [None; None; None;
             Some {| type := lit "TASK_COMPLETE";
                     attrs := {[ lit "task" := lit "T1" ]};
                     body := lit "Done" ++ NL ++ lit " and dusted" |}]).
Proof.
  apply (multiline_block_signal
           (lit "<!-- SIGNAL:TASK_COMPLETE task=" ++ Q ++ lit "T1" ++ Q ++ lit " -->")
           {| m_index := 0;
              m_text := lit "<!-- SIGNAL:TASK_COMPLETE task=" ++ Q ++ lit "T1" ++ Q ++ lit " -->";
              m_caps := [(2%nat, lit " task=" ++ Q ++ lit "T1" ++ Q);
                         (1%nat, lit "TASK_COMPLETE")] |}
           [lit "Done"; lit " and dusted "] (lit "<!-- /SIGNAL -->")).
  - vm_compute; reflexivity.
  - vm_compute; reflexivity.
  - vm_compute; reflexivity.
  - repeat constructor; vm_compute; reflexivity.
  - vm_compute; reflexivity.
  - vm_compute; reflexivity.
Defined.

(** C4, as the claim states it, fails: an open marker whose attribute
    value holds the legacy literal is answered with the COMPLETE signal, no
    block is opened, and the close-marker line gives nothing. *)
Lemma multiline_block_legacy_attribute :
  let openLine := lit "<!-- SIGNAL:BLOCKED reason=" ++ Q
                  ++ lit "<promise>COMPLETE</promise>" ++ Q ++ lit " -->" in
  let body_lines := [lit "Done"] in
  let closeLine := lit "<!-- /SIGNAL -->" in
  (exists m, exec SIGNAL_OPEN openLine = Some m /\ m_index m = 0%nat
             /\ m_text m = openLine) /\
  Forall (fun l => includes l LEGACY = false /\ test SIGNAL_CLOSE l = false
                   /\ exec SIGNAL_OPEN l = None) body_lines /\
  test SIGNAL_CLOSE closeLine = true /\
  snd (feed_lines fresh (openLine :: body_lines ++ [closeLine]))
  = [Some COMPLETE_SIGNAL; None; None] /\
  ~ exists sig, snd (feed_lines fresh (openLine :: body_lines ++ [closeLine]))
                = [None; None; Some sig].
Proof.
  cbv zeta.
  assert (snd (feed_lines fresh
            ((lit "<!-- SIGNAL:BLOCKED reason=" ++ Q
              ++ lit "<promise>COMPLETE</promise>" ++ Q ++ lit " -->")
             :: [lit "Done"] ++ [lit "<!-- /SIGNAL -->"]))
          = [Some COMPLETE_SIGNAL; None; None]) as E by (vm_compute; reflexivity).
  split; [eexists; split; [vm_compute; reflexivity|split; reflexivity]|].
  split; [repeat constructor; vm_compute; reflexivity|].
  split; [vm_compute; reflexivity|].
  split; [exact E|].
  intros [sig H]. rewrite E in H. discriminate.
Qed.

(** The legacy literal goes first on a self-closing line too: the open
    marker and the close marker are on the line, with the legacy literal
    between them, and [feed] answers with the legacy signal, whose body is
    empty. *)
Lemma self_closing_legacy_body :
  let line := lit "<!-- SIGNAL:VERIFICATION --> <promise>COMPLETE</promise> <!-- /SIGNAL -->" in
  let between := lit "<promise>COMPLETE</promise>" in
  (exists m, exec SIGNAL_OPEN line = Some m /\
             trim (slice_to (slice_from line (m_index m + length (m_text m)))
                     (indexOf (slice_from line (m_index m + length (m_text m)))
                        CLOSE_LITERAL)) = between) /\
  test SIGNAL_CLOSE line = true /\
  (exists sig, snd (feed fresh line) = Some sig /\ body sig = []) /\
  ~ exists sig, snd (feed fresh line) = Some sig /\ body sig = between.
Proof.
  cbv zeta.
  split; [eexists; split; vm_compute; reflexivity|].
  split; [vm_compute; reflexivity|].
  split; [eexists; split; vm_compute; reflexivity|].
  intros [sig [H1 H2]]. vm_compute in H1. injection H1 as <-. discriminate.
Qed.

(** [feed] keeps the invariant. *)
Lemma feed_idle_body_empty (p : SignalParser) (line : jsstring) :
  idle_body_empty p -> idle_body_empty (fst (feed p line)).
Proof.
  unfold idle_body_empty, feed. intros Hp.
  destruct (includes line LEGACY); [done|].
  destruct (pending p) as [[ty at_]|] eqn:E.
  - destruct (test SIGNAL_CLOSE line); [done|].
    destruct (exec SIGNAL_OPEN line); simpl; done.
  - destruct (exec SIGNAL_OPEN line); [|simpl; auto].
    destruct (test SIGNAL_CLOSE line); simpl; auto.
Qed.

Lemma call_idle_body_empty (p : SignalParser) (c : Call) :
  idle_body_empty p -> idle_body_empty (call p c).
Proof.
  destruct c as [line|]; simpl; [apply feed_idle_body_empty | done].
Qed.

Lemma calls_idle_body_empty (cs : list Call) (p : SignalParser) :
  idle_body_empty p -> idle_body_empty (calls p cs).
Proof.
  revert p. induction cs as [|c cs IH]; intros p Hp; simpl; [done|].
  apply IH, call_idle_body_empty, Hp.
Qed.

(** C10: after every call of a sequence of [feed] and [reset] calls made
    on a fresh parser (after the first [n] calls, for every [n]), the body
    lines are empty whenever no block is pending. *)
Theorem idle_parser_has_no_body (cs : list Call) (n : nat) :
  idle_body_empty (calls fresh (take n cs)).
Proof. by apply calls_idle_body_empty. Qed.

(** C6: [reset] gives the fresh parser whatever the state [q] was; so
    after any prefix of a block was fed to a parser, a [reset] and the whole
    block fed again give the same returned values, one by one, and the same
    final parser as the block fed to a fresh parser. *)
Theorem reset_refeed_same_results (p q : SignalParser) (block : list jsstring)
    (n : nat) :
  (pending (reset q) = None /\ bodyLines (reset q) = []) /\
  feed_lines (reset (fst (feed_lines p (take n block)))) block
  = feed_lines fresh block.
Proof. done. Qed.

End SignalsFacts.

(** ** The process runner *)

Module SpawnFacts.

Lemma nlfree_nil : nlfree [].
Proof. constructor. Qed.

Lemma split_nl_nlfree (cur : jsstring) : nlfree cur -> split_nl cur = [cur].
Proof.
  induction 1 as [|c cur Hc _ IH]; simpl; [done|].
  apply N.eqb_neq in Hc as ->. by rewrite IH.
Qed.

Lemma split_nl_nonempty (s : jsstring) : split_nl s <> [].
Proof.
  induction s as [|c s IH]; simpl; [done|].
  destruct (c =? 10); [done|]. by destruct (split_nl s).
Qed.

Lemma split_nl_app_newline (cur s : jsstring) :
  nlfree cur -> split_nl (cur ++ 10 :: s) = cur :: split_nl s.
Proof.
  induction 1 as [|c cur Hc _ IH]; simpl; [done|].
  apply N.eqb_neq in Hc as ->. by rewrite IH.
Qed.

Lemma pop_cons (x : jsstring) (l : list jsstring) :
  l <> [] -> pop (x :: l) = (x :: fst (pop l), snd (pop l)).
Proof.
  destruct l as [|y l]; [done|]. intros _.
  change (pop (x :: y :: l)) with (let (r, z) := pop (y :: l) in (x :: r, z)).
  by destruct (pop (y :: l)).
Qed.

(** [split] and [pop] together cut a text, begun by a newline-free
    buffer, into its completed lines and the partial line at its end. *)
Lemma pop_split_scan (s cur : jsstring) :
  nlfree cur ->
  pop (split_nl (cur ++ s)) = (fst (scan cur s), Some (snd (scan cur s))).
Proof.
  revert cur. induction s as [|c s IH]; intros cur Hcur.
  - rewrite app_nil_r, split_nl_nlfree by done. done.
  - simpl scan. destruct (c =? 10) eqn:E.
    + apply N.eqb_eq in E as ->. rewrite split_nl_app_newline by done.
      rewrite pop_cons by apply split_nl_nonempty.
      specialize (IH [] nlfree_nil). simpl in IH. rewrite IH.
      by destruct (scan [] s).
    + rewrite (cons_middle c cur s), app_assoc. apply IH.
      apply Forall_app. split; [done|]. constructor; [|done].
      by apply N.eqb_neq.
Qed.

Lemma scan_nlfree (s cur : jsstring) : nlfree cur -> nlfree (snd (scan cur s)).
Proof.
  revert cur. induction s as [|c s IH]; intros cur Hcur; simpl; [done|].
  destruct (c =? 10) eqn:E.
  - specialize (IH [] nlfree_nil). by destruct (scan [] s).
  - apply IH, Forall_app. split; [done|]. constructor; [|done].
    by apply N.eqb_neq.
Qed.

(** Cutting a text in two pieces cuts its lines in two runs. *)
Lemma scan_app (a b cur : jsstring) :
  scan cur (a ++ b)
  = (fst (scan cur a) ++ fst (scan (snd (scan cur a)) b),
     snd (scan (snd (scan cur a)) b)).
Proof.
  revert cur. induction a as [|c a IH]; intros cur; simpl.
  - by destruct (scan cur b).
  - destruct (c =? 10).
    + rewrite (IH []). by destruct (scan [] a).
    + apply IH.
Qed.

Lemma decode_app (dec : TextDecoder) (d : dstate dec) (a b : chunk) :
  decode dec d (a ++ b)
  = (fst (decode dec (fst (decode dec d a)) b),
     snd (decode dec d a) ++ snd (decode dec (fst (decode dec d a)) b)).
Proof.
  revert d. induction a as [|x a IH]; intros d; simpl.
  - by destruct (decode dec d b).
  - destruct (dstep dec d x) as [d1 t1]. rewrite IH.
    destruct (decode dec d1 a) as [d2 t2]. simpl.
    by rewrite app_assoc.
Qed.

(** One round of the loop, by the lines of the decoded text. *)
Lemma read_chunk_scan {dec} (opts : SpawnOptions) (isStdout : bool)
    (rd : Reader dec) (w : World) (value : chunk) :
  nlfree (buffer rd) ->
  read_chunk opts isStdout (rd, w) value
  = ({| dst := fst (decode dec (dst rd) value);
        buffer := snd (scan (buffer rd) (snd (decode dec (dst rd) value))) |},
     fold_left (on_line opts isStdout)
       (fst (scan (buffer rd) (snd (decode dec (dst rd) value)))) w).
Proof.
  intros Hb. unfold read_chunk.
  destruct (decode dec (dst rd) value) as [d' text]. simpl.
  by rewrite pop_split_scan.
Qed.

(** The whole loop, by the lines of the whole decoded text. *)
Lemma read_loop_scan {dec} (opts : SpawnOptions) (isStdout : bool)
    (chunks : list chunk) (rd : Reader dec) (w : World) :
  nlfree (buffer rd) ->
  fold_left (read_chunk opts isStdout) chunks (rd, w)
  = ({| dst := fst (decode dec (dst rd) (concat chunks));
        buffer := snd (scan (buffer rd) (snd (decode dec (dst rd) (concat chunks)))) |},
     fold_left (on_line opts isStdout)
       (fst (scan (buffer rd) (snd (decode dec (dst rd) (concat chunks))))) w).
Proof.
  revert rd w. induction chunks as [|c chunks IH]; intros rd w Hb.
  - simpl. by destruct rd.
  - cbn [fold_left]. rewrite read_chunk_scan by done.
    rewrite IH by (by apply scan_nlfree). simpl.
    rewrite decode_app. simpl. rewrite scan_app. simpl.
    by rewrite fold_left_app.
Qed.

(** The standard-output reader handles the lines of the decoded stream,
    the partial line at its end included. *)
Lemma readStream_stdout_lines (dec : TextDecoder) (opts : SpawnOptions)
    (chunks : list chunk) (w : World) :
  readStream dec opts (Some chunks) true w
  = fold_left (on_stdout_line opts) (text_lines (stream_text dec chunks)) w.
Proof.
  unfold readStream. rewrite read_loop_scan by apply nlfree_nil.
  unfold read_end, text_lines, stream_text. cbn [buffer reader0 dst on_line].
  destruct (scan [] _) as [ls r]. cbn [fst snd]. rewrite fold_left_app.
  rewrite andb_true_r. by destruct (0 <? length r)%nat.
Qed.

(** The standard-error reader handles the lines completed by a newline,
    and nothing else. *)
Lemma readStream_stderr_lines (dec : TextDecoder) (opts : SpawnOptions)
    (chunks : list chunk) (w : World) :
  readStream dec opts (Some chunks) false w
  = fold_left on_stderr_line (complete_lines (stream_text dec chunks)) w.
Proof.
  unfold readStream. rewrite read_loop_scan by apply nlfree_nil.
  unfold read_end, complete_lines, stream_text. cbn [buffer reader0 dst on_line].
  by rewrite andb_false_r.
Qed.

Lemma drain_start (dec : TextDecoder) (opts : SpawnOptions) (isStdout : bool)
    (stream : option (list chunk)) (w : World) :
  drain opts isStdout (start dec stream) w = readStream dec opts stream isStdout w.
Proof. by destruct stream. Qed.

Lemma step_drain {dec} (opts : SpawnOptions) (isStdout : bool) (t : Task dec)
    (w : World) :
  drain opts isStdout (fst (step opts isStdout t w)) (snd (step opts isStdout t w))
  = drain opts isStdout t w.
Proof.
  destruct t as [rd [|c rest]|]; cbn [step drain fold_left]; try done.
  by destruct (read_chunk opts isStdout (rd, w) c).
Qed.

(** *** What the other reader cannot change *)

Lemma without_stderr_app (a b : list Effect) :
  without_stderr (a ++ b) = without_stderr a ++ without_stderr b.
Proof. apply List.filter_app. Qed.

Lemma on_stdout_line_view (opts : SpawnOptions) (w w' : World) (line : jsstring) :
  view w = view w' ->
  view (on_stdout_line opts w line) = view (on_stdout_line opts w' line).
Proof.
  unfold view, on_stdout_line. intros [= Hp Hs Ho Ht]. rewrite Hp.
  destruct (feed (parser w') line) as [p' [sig|]]; cbn [parser signals outputLines trace];
    rewrite !without_stderr_app; congruence.
Qed.

Lemma on_stderr_line_view (w : World) (line : jsstring) :
  view (on_stderr_line w line) = view w.
Proof.
  unfold view, on_stderr_line. cbn [parser signals outputLines trace].
  rewrite without_stderr_app. simpl. by rewrite app_nil_r.
Qed.

Lemma stdout_lines_view (opts : SpawnOptions) (lines : list jsstring) (w w' : World) :
  view w = view w' ->
  view (fold_left (on_stdout_line opts) lines w)
  = view (fold_left (on_stdout_line opts) lines w').
Proof.
  revert w w'. induction lines as [|l lines IH]; intros w w' H; simpl; [done|].
  by apply IH, on_stdout_line_view.
Qed.

Lemma stderr_lines_view (lines : list jsstring) (w : World) :
  view (fold_left on_stderr_line lines w) = view w.
Proof.
  revert w. induction lines as [|l lines IH]; intros w; simpl; [done|].
  by rewrite IH, on_stderr_line_view.
Qed.

Lemma read_chunk_stdout_view {dec} (opts : SpawnOptions) (rd : Reader dec)
    (w w' : World) (value : chunk) :
  view w = view w' ->
  fst (read_chunk opts true (rd, w) value) = fst (read_chunk opts true (rd, w') value) /\
  view (snd (read_chunk opts true (rd, w) value))
  = view (snd (read_chunk opts true (rd, w') value)).
Proof.
  intros H. unfold read_chunk.
  destruct (decode dec (dst rd) value) as [d' text].
  destruct (pop (split_nl (buffer rd ++ text))) as [lines last].
  split; [done|]. by apply stdout_lines_view.
Qed.

Lemma read_chunk_stderr_view {dec} (opts : SpawnOptions) (rd : Reader dec)
    (w : World) (value : chunk) :
  view (snd (read_chunk opts false (rd, w) value)) = view w.
Proof.
  unfold read_chunk.
  destruct (decode dec (dst rd) value) as [d' text].
  destruct (pop (split_nl (buffer rd ++ text))) as [lines last].
  apply stderr_lines_view.
Qed.

Lemma read_loop_stdout_view {dec} (opts : SpawnOptions) (chunks : list chunk)
    (rd : Reader dec) (w w' : World) :
  view w = view w' ->
  fst (fold_left (read_chunk opts true) chunks (rd, w))
  = fst (fold_left (read_chunk opts true) chunks (rd, w')) /\
  view (snd (fold_left (read_chunk opts true) chunks (rd, w)))
  = view (snd (fold_left (read_chunk opts true) chunks (rd, w'))).
Proof.
  revert rd w w'. induction chunks as [|c chunks IH]; intros rd w w' H.
  - done.
  - cbn [fold_left].
    destruct (read_chunk_stdout_view opts rd w w' c H) as [H1 H2].
    destruct (read_chunk opts true (rd, w) c) as [rd1 w1].
    destruct (read_chunk opts true (rd, w') c) as [rd1' w1'].
    simpl in H1, H2. subst rd1'. by apply IH.
Qed.

Lemma read_loop_stderr_view {dec} (opts : SpawnOptions) (chunks : list chunk)
    (rd : Reader dec) (w : World) :
  view (snd (fold_left (read_chunk opts false) chunks (rd, w))) = view w.
Proof.
  revert rd w. induction chunks as [|c chunks IH]; intros rd w.
  - done.
  - cbn [fold_left].
    pose proof (read_chunk_stderr_view opts rd w c) as H.
    destruct (read_chunk opts false (rd, w) c) as [rd1 w1].
    simpl in H. by rewrite IH.
Qed.

Lemma drain_stdout_view {dec} (opts : SpawnOptions) (t : Task dec) (w w' : World) :
  view w = view w' ->
  view (drain opts true t w) = view (drain opts true t w').
Proof.
  intros H. destruct t as [rd rest|]; [|done]. unfold drain.
  destruct (read_loop_stdout_view opts rest rd w w' H) as [H1 H2].
  destruct (fold_left _ rest (rd, w)) as [rd1 w1].
  destruct (fold_left _ rest (rd, w')) as [rd1' w1'].
  simpl in H1, H2. subst rd1'. unfold read_end. rewrite andb_true_r.
  destruct (0 <? length (buffer rd1))%nat; [|done].
  by apply on_stdout_line_view.
Qed.

Lemma drain_stderr_view {dec} (opts : SpawnOptions) (t : Task dec) (w : World) :
  view (drain opts false t w) = view w.
Proof.
  destruct t as [rd rest|]; [|done]. unfold drain.
  pose proof (read_loop_stderr_view opts rest rd w) as H.
  destruct (fold_left _ rest (rd, w)) as [rd1 w1].
  unfold read_end. by rewrite andb_false_r.
Qed.

Lemma step_stderr_view {dec} (opts : SpawnOptions) (t : Task dec) (w : World) :
  view (snd (step opts false t w)) = view w.
Proof.
  destruct t as [rd [|c rest]|]; cbn [step]; try done.
  - unfold read_end. by rewrite andb_false_r.
  - pose proof (read_chunk_stderr_view opts rd w c) as H.
    by destruct (read_chunk opts false (rd, w) c).
Qed.

(** Whatever the schedule and whatever arrives on standard error, the
    parser, the signals, the output lines and the effects other than the
    writes to the error stream are those of the standard-output reader
    run alone. *)
Lemma race_view {dec} (opts : SpawnOptions) (sched : list bool)
    (tout terr : Task dec) (w : World) :
  view (race opts sched tout terr w) = view (drain opts true tout w).
Proof.
  revert tout terr w. induction sched as [|b sched IH]; intros tout terr w.
  - apply drain_stderr_view.
  - destruct b; cbn [race].
    + pose proof (step_drain opts true tout w) as H.
      destruct (step opts true tout w) as [tout' w']. cbn [fst snd] in H.
      by rewrite IH, H.
    + pose proof (step_stderr_view opts terr w) as H.
      destruct (step opts false terr w) as [terr' w']. cbn [snd] in H.
      rewrite IH. by apply drain_stdout_view.
Qed.

(** What the standard-error reader writes: the lines completed by a
    newline, each with its newline, and nothing of the text behind the last
    newline. *)
Lemma stderr_lines_trace (lines : list jsstring) (w : World) :
  trace (fold_left on_stderr_line lines w)
  = trace w ++ map (fun line => StderrWrite (line ++ NL)) lines.
Proof.
  revert w. induction lines as [|l lines IH]; intros w; simpl.
  - by rewrite app_nil_r.
  - rewrite IH. simpl. by rewrite <- app_assoc.
Qed.

Lemma readStream_stderr_trace (dec : TextDecoder) (opts : SpawnOptions)
    (chunks : list chunk) (w : World) :
  trace (readStream dec opts (Some chunks) false w)
  = trace w ++ map (fun line => StderrWrite (line ++ NL))
                   (complete_lines (stream_text dec chunks)).
Proof. by rewrite readStream_stderr_lines, stderr_lines_trace. Qed.

(** The standard-error reader leaves the parser, the signals and the
    output lines alone. *)
Lemma readStream_stderr_view (dec : TextDecoder) (opts : SpawnOptions)
    (stream : option (list chunk)) (w : World) :
  view (readStream dec opts stream false w) = view w.
Proof. rewrite <- drain_start. apply drain_stderr_view. Qed.

(** What a run of [spawnAgent] leaves of the standard-output side. *)
Lemma spawn_view (opts : SpawnOptions) (child : Child) (sched : list bool) :
  view (race opts sched (start utf8 (c_stdout child))
          (start utf8 (c_stderr child)) world0)
  = view (fold_left (on_stdout_line opts)
            (text_lines (child_text (c_stdout child))) world0).
Proof.
  rewrite race_view, drain_start.
  destruct (c_stdout child) as [chunks|]; [|done].
  by rewrite readStream_stdout_lines.
Qed.

(** The result of [spawnAgent] is made of the lines of the text on
    standard output and of the exit code. *)
Lemma spawn_result (opts : SpawnOptions) (child : Child) (sched : list bool) :
  fst (spawnAgent opts child sched)
  = let w := fold_left (on_stdout_line opts)
               (text_lines (child_text (c_stdout child))) world0 in
    {| AgentResult.exitCode := c_exited child;
       AgentResult.stdout := join NL (outputLines w);
       AgentResult.signals := signals w |}.
Proof.
  unfold spawnAgent. cbn [fst].
  pose proof (spawn_view opts child sched) as H. unfold view in H.
  injection H as Hp Hs Ho Ht. by rewrite Hs, Ho.
Qed.

Lemma stdout_lines_outputLines (opts : SpawnOptions) (lines : list jsstring)
    (w : World) :
  outputLines (fold_left (on_stdout_line opts) lines w) = outputLines w ++ lines.
Proof.
  revert w. induction lines as [|l lines IH]; intros w; simpl.
  - by rewrite app_nil_r.
  - rewrite IH. unfold on_stdout_line.
    destruct (feed (parser w) l) as [p' [sig|]]; simpl; by rewrite <- app_assoc.
Qed.

(** The aggregated output is the lines of the text on standard output,
    joined by newlines. *)
Lemma spawn_stdout (opts : SpawnOptions) (child : Child) (sched : list bool) :
  AgentResult.stdout (fst (spawnAgent opts child sched))
  = join NL (text_lines (child_text (c_stdout child))).
Proof. rewrite spawn_result. simpl. by rewrite stdout_lines_outputLines. Qed.

(** C7: two ways of cutting the same bytes of standard output into read
    chunks give the same run.  The reader alone handles the same lines in
    the same order, so it leaves the same parser, signals, output lines and
    callback effects, for every decoder and every starting point; and
    [spawnAgent] returns the same result (exit code, aggregated output,
    list of signals), whatever arrives on standard error and however the
    two readers take turns. *)
Theorem chunking_independent (opts : SpawnOptions) (chunks1 chunks2 : list chunk) :
  concat chunks1 = concat chunks2 ->
  (forall (dec : TextDecoder) (w : World),
     readStream dec opts (Some chunks1) true w
     = readStream dec opts (Some chunks2) true w) /\
  (forall (err1 err2 : option (list chunk)) (code : Z) (sched1 sched2 : list bool),
     fst (spawnAgent opts
            {| c_stdout := Some chunks1; c_stderr := err1; c_exited := code |} sched1)
     = fst (spawnAgent opts
              {| c_stdout := Some chunks2; c_stderr := err2; c_exited := code |} sched2)).
Proof.
  intros H. split.
  - intros dec w. rewrite !readStream_stdout_lines. unfold stream_text.
    by rewrite H.
  - intros err1 err2 code sched1 sched2. rewrite !spawn_result.
    cbn [c_stdout c_exited child_text]. unfold stream_text. by rewrite H.
Qed.

End SpawnFacts.

(** ** The monitor *)

Module MonitorFacts.
Import SpawnFacts.

Lemma invocations_without_stderr (tr : list Effect) :
  invocations (without_stderr tr) = invocations tr.
Proof.
  induction tr as [|e tr IH]; [done|].
  destruct e; simpl; by rewrite ?IH.
Qed.

Lemma stdout_writes_without_stderr (tr : list Effect) :
  stdout_writes (without_stderr tr) = stdout_writes tr.
Proof.
  induction tr as [|e tr IH]; [done|].
  destruct e; simpl; by rewrite ?IH.
Qed.

Lemma invocations_app (a b : list Effect) :
  invocations (a ++ b) = invocations a ++ invocations b.
Proof. apply omap_app. Qed.

Lemma stdout_writes_app (a b : list Effect) :
  stdout_writes (a ++ b) = stdout_writes a ++ stdout_writes b.
Proof. apply omap_app. Qed.

(** A call of a caller's function shows as one call in the trace, and
    writes what the function writes. *)
Lemma invocations_invoke (f : SignalHandler) (sig : Signal) :
  invocations (invoke f sig) = [(fn_name f, sig)].
Proof.
  unfold invoke. change (invocations (Invoke (fn_name f) sig :: ?l))
    with ((fn_name f, sig) :: invocations l).
  f_equal. induction (fn_prints f sig) as [|[s|s] prints IH]; done.
Qed.

Lemma stdout_writes_invoke (f : SignalHandler) (sig : Signal) :
  stdout_writes (invoke f sig) = outs (fn_prints f sig).
Proof.
  unfold invoke. change (stdout_writes (Invoke (fn_name f) sig :: ?l))
    with (stdout_writes l).
  induction (fn_prints f sig) as [|[s|s] prints IH]; [done| |done].
  change (s :: stdout_writes (map print prints) = s :: outs prints).
  by rewrite IH.
Qed.

Lemma invocations_reject (r : Reason) (tr : list Effect) :
  invocations (Reject r :: tr) = invocations tr.
Proof. done. Qed.

Lemma stdout_writes_reject (r : Reason) (tr : list Effect) :
  stdout_writes (Reject r :: tr) = stdout_writes tr.
Proof. done. Qed.

Lemma invocations_dispatch (proto : jsstring -> Value) (opts : MonitorOptions)
    (sig : Signal) :
  invocations (dispatch proto (onAnySignal opts) (default ∅ (handlers opts)) sig)
  = calls_for proto opts sig.
Proof.
  unfold dispatch, calls_for, called, get_property. cbv zeta.
  set (found := match default ∅ (handlers opts) !! type sig with
                | Some own => own
                | None => proto (type sig)
                end).
  assert (invocations
            match found with
            | Undefined => []
            | Function handler =>
                invoke handler sig
                ++ match fn_ends handler sig with
                   | Returns => []
                   | _ => [Reject (ThrownBy (fn_name handler))]
                   end
            | Other => [Reject NotAFunction]
            end
          = map (fun h => (fn_name h, sig))
              match found with Function handler => [handler] | _ => [] end) as Hrest.
  { destruct found as [|h|]; [done| |done].
    rewrite invocations_app, invocations_invoke. by destruct (fn_ends h sig). }
  destruct (onAnySignal opts) as [f|]; [|exact Hrest].
  rewrite invocations_app, invocations_invoke.
  destruct (fn_ends f sig); rewrite ?invocations_reject, ?Hrest; done.
Qed.

Lemma stdout_writes_dispatch (proto : jsstring -> Value) (opts : MonitorOptions)
    (sig : Signal) :
  stdout_writes (dispatch proto (onAnySignal opts) (default ∅ (handlers opts)) sig)
  = printed proto opts sig.
Proof.
  unfold dispatch, printed, called, get_property. cbv zeta.
  set (found := match default ∅ (handlers opts) !! type sig with
                | Some own => own
                | None => proto (type sig)
                end).
  assert (stdout_writes
            match found with
            | Undefined => []
            | Function handler =>
                invoke handler sig
                ++ match fn_ends handler sig with
                   | Returns => []
                   | _ => [Reject (ThrownBy (fn_name handler))]
                   end
            | Other => [Reject NotAFunction]
            end
          = flat_map (fun h => outs (fn_prints h sig))
              match found with Function handler => [handler] | _ => [] end) as Hrest.
  { destruct found as [|h|]; [done| |done].
    rewrite stdout_writes_app, stdout_writes_invoke. cbn [flat_map].
    by destruct (fn_ends h sig). }
  destruct (onAnySignal opts) as [f|]; [|exact Hrest].
  rewrite stdout_writes_app, stdout_writes_invoke. cbn [flat_map].
  destruct (fn_ends f sig); rewrite ?stdout_writes_reject, ?Hrest; cbn [flat_map];
    by rewrite ?app_nil_r.
Qed.

Lemma invocations_echo (proto : jsstring -> Value) (opts : MonitorOptions)
    (line : jsstring) :
  invocations (call_opt (onOutput (spawn_options proto opts)) line) = [].
Proof.
  unfold spawn_options. cbn [onOutput].
  by destruct (default true (passthrough opts)).
Qed.

Lemma stdout_writes_output (proto : jsstring -> Value) (opts : MonitorOptions)
    (line : jsstring) :
  stdout_writes (call_opt (onOutput (spawn_options proto opts)) line)
  = if default true (passthrough opts) then [line ++ NL] else [].
Proof.
  unfold spawn_options. cbn [onOutput].
  by destruct (default true (passthrough opts)).
Qed.

(** The handler calls keep in step with the signals. *)
Lemma stdout_lines_calls (proto : jsstring -> Value) (opts : MonitorOptions)
    (lines : list jsstring) (w : World) :
  invocations (trace w) = flat_map (calls_for proto opts) (signals w) ->
  let w' := fold_left (on_stdout_line (spawn_options proto opts)) lines w in
  invocations (trace w') = flat_map (calls_for proto opts) (signals w').
Proof.
  revert w. induction lines as [|l lines IH]; intros w Hw; [done|].
  cbn [fold_left]. apply IH. unfold on_stdout_line.
  destruct (feed (parser w) l) as [p' [sig|]]; cbn [trace signals].
  - rewrite !invocations_app, Hw, flat_map_app, invocations_echo.
    cbn [spawn_options onSignal call_opt].
    rewrite invocations_dispatch. simpl. by rewrite app_nil_r.
  - by rewrite !invocations_app, Hw, invocations_echo, app_nil_r.
Qed.

(** What reaches the parent's standard output while the lines are handled:
    line by line, the echo when it is on, then what the functions called
    for the signal that the line completes write. *)
Lemma stdout_lines_written (proto : jsstring -> Value) (opts : MonitorOptions)
    (lines : list jsstring) (w : World) :
  stdout_writes (trace (fold_left (on_stdout_line (spawn_options proto opts)) lines w))
  = stdout_writes (trace w)
    ++ flat_map (fun '(line, returned) =>
                   (if default true (passthrough opts) then [line ++ NL] else [])
                   ++ match returned with
                      | Some sig => printed proto opts sig
                      | None => []
                      end)
         (zip lines (snd (feed_lines (parser w) lines))).
Proof.
  revert w. induction lines as [|l lines IH]; intros w.
  - simpl. by rewrite app_nil_r.
  - cbn [fold_left feed_lines]. rewrite IH. unfold on_stdout_line.
    destruct (feed (parser w) l) as [p' [sig|]]; cbn [parser trace];
      destruct (feed_lines p' lines) as [p2 rs]; cbn [snd zip_with flat_map];
      rewrite !stdout_writes_app, stdout_writes_output, <- !app_assoc.
    + cbn [spawn_options onSignal call_opt].
      by rewrite stdout_writes_dispatch.
    + done.
Qed.

(** C9: in every run of [monitorAgent], whatever the child writes and
    however the two readers take turns, the calls of the caller's functions
    are, signal by signal in the order of the result's signal list: first
    the catch-all, when one is supplied; then the handler registered for
    the signal's type, when there is one.  Where no handler is registered
    under the type the property read goes up the prototype chain, and a
    function found there is called in the handler's place; a catch-all
    that throws ends the dispatch of its signal, so the call behind it is
    made only when the catch-all returned.  And with the [passthrough]
    option left out, every line of the child's output is written to the
    parent's standard output, followed by a newline, in order and before
    anything that the functions called for the signal completed by that
    line write there; nothing else is written to it. *)
Theorem monitor_dispatch_and_echo (proto : jsstring -> Value)
    (opts : MonitorOptions) (child : Child) (sched : list bool) :
  let lines := text_lines (child_text (c_stdout child)) in
  let called (sig : Signal) : list SignalHandler :=
    let specific :=
      match (match default ∅ (handlers opts) !! type sig with
             | Some registered => registered
             | None => proto (type sig)
             end) with
      | Function handler => [handler]
      | _ => []
      end in
    match onAnySignal opts with
    | Some f => f :: match fn_ends f sig with Throws => [] | _ => specific end
    | None => specific
    end in
  let (result, effects) := monitorAgent proto opts child sched in
  invocations effects
  = flat_map (fun sig => map (fun h => (fn_name h, sig)) (called sig))
      (AgentResult.signals result) /\
  (passthrough opts = None ->
   stdout_writes effects
   = flat_map (fun '(line, returned) =>
                 (line ++ NL)
                 :: match returned with
                    | Some sig => flat_map (fun h => outs (fn_prints h sig)) (called sig)
                    | None => []
                    end)
       (zip lines (snd (feed_lines fresh lines)))).
Proof.
  cbv zeta. unfold monitorAgent, spawnAgent.
  pose proof (spawn_view (spawn_options proto opts) child sched) as H.
  unfold view in H. injection H as Hp Hs Ho Ht.
  cbn [AgentResult.signals]. split.
  - rewrite <- invocations_without_stderr, Ht, invocations_without_stderr, Hs.
    by apply (stdout_lines_calls proto opts).
  - intros Hpt.
    rewrite <- stdout_writes_without_stderr, Ht, stdout_writes_without_stderr.
    rewrite stdout_lines_written, Hpt. reflexivity.
Qed.

End MonitorFacts.

(** ** The runner and the monitor on concrete streams *)

Module Examples.
Import SpawnFacts MonitorFacts.

Lemma chunking_independent_witness :
  (forall (dec : TextDecoder) (w : World),
     readStream dec quiet (Some (byte_at_a_time scenario2)) true w
     = readStream dec quiet (Some [scenario2]) true w) /\
  (forall (err1 err2 : option (list chunk)) (code : Z) (sched1 sched2 : list bool),
     fst (spawnAgent quiet
            {| c_stdout := Some (byte_at_a_time scenario2); c_stderr := err1;
               c_exited := code |} sched1)
     = fst (spawnAgent quiet
              {| c_stdout := Some [scenario2]; c_stderr := err2;
                 c_exited := code |} sched2)).
Proof.
  apply (chunking_independent quiet (byte_at_a_time scenario2) [scenario2]).
  vm_compute. reflexivity.
Defined.

Lemma monitor_dispatch_and_echo_witness :
  let lines := text_lines (child_text (c_stdout prototype_child)) in
  let (result, effects) :=
    monitorAgent example_prototype example_monitor prototype_child
      [true; false; true] in
  invocations effects
  = flat_map (calls_for example_prototype example_monitor)
      (AgentResult.signals result) /\
  stdout_writes effects
  = flat_map (fun '(line, returned) =>
                (line ++ NL)
                :: match returned with
                   | Some sig => printed example_prototype example_monitor sig
                   | None => []
                   end)
      (zip lines (snd (feed_lines fresh lines))).
Proof.
  pose proof (monitor_dispatch_and_echo example_prototype example_monitor
                prototype_child [true; false; true]) as H.
  cbv zeta in H |- *.
  destruct (monitorAgent example_prototype example_monitor prototype_child
              [true; false; true]) as [result effects].
  destruct H as [H1 H2]. split; [exact H1 | exact (H2 eq_refl)].
Defined.

(** The run of the example monitor on a child whose signal types include
    names of [Object.prototype]: the calls in order, the parent's standard
    output, and the promises left rejected. *)
Lemma monitor_prototype_run :
  let sig (ty text : string) := {| type := lit ty; attrs := ∅; body := lit text |} in
  let done := {| type := lit "TASK_COMPLETE"; attrs := {[ lit "task" := lit "T1" ]};
                 body := lit "Done" |} in
  let (result, effects) :=
    monitorAgent example_prototype example_monitor prototype_child
      [true; false; true] in
  AgentResult.signals result
  = [done; sig "BLOCKED"%string "stuck"%string; sig "constructor"%string ""%string; sig "valueOf"%string ""%string;
     sig "__proto__"%string ""%string] /\
  invocations effects
  = [(1%nat, done); (7%nat, done);
     (1%nat, sig "BLOCKED"%string "stuck"%string);
     (1%nat, sig "constructor"%string ""%string); (100%nat, sig "constructor"%string ""%string);
     (1%nat, sig "valueOf"%string ""%string); (101%nat, sig "valueOf"%string ""%string);
     (1%nat, sig "__proto__"%string ""%string)] /\
  rejections effects = [ThrownBy 101%nat; NotAFunction] /\
  concat (stdout_writes effects)
  = lit "hello" ++ NL ++ scenario2 ++ NL
    ++ lit "signal: TASK_COMPLETE" ++ NL ++ lit "done: TASK_COMPLETE" ++ NL
    ++ lit "<!-- SIGNAL:BLOCKED --> stuck <!-- /SIGNAL -->" ++ NL
    ++ lit "signal: BLOCKED" ++ NL
    ++ lit "<!-- SIGNAL:constructor --> <!-- /SIGNAL -->" ++ NL
    ++ lit "signal: constructor" ++ NL
    ++ lit "<!-- SIGNAL:valueOf --> <!-- /SIGNAL -->" ++ NL
    ++ lit "signal: valueOf" ++ NL
    ++ lit "<!-- SIGNAL:__proto__ --> <!-- /SIGNAL -->" ++ NL
    ++ lit "signal: __proto__" ++ NL.
Proof. cbv zeta. vm_compute. repeat split; reflexivity. Qed.

(** Scenario 2 of the specification, whatever the chunks. *)
Lemma scenario2_result :
  fst (spawnAgent quiet
         {| c_stdout := Some (byte_at_a_time scenario2); c_stderr := None;
            c_exited := 0 |} [])
  = {| AgentResult.exitCode := 0;
       AgentResult.stdout := scenario2;
       AgentResult.signals :=
         [{| type := lit "TASK_COMPLETE";
             attrs := {[ lit "task" := lit "T1" ]};
             body := lit "Done" |}] |}.
Proof. vm_compute. reflexivity. Qed.

(** The last of two pairs with the same key wins, and a pair whose key is
    [__proto__] leaves no attribute. *)
Lemma parseAttrs_examples :
  parseAttrs (lit " a=" ++ Q ++ lit "1" ++ Q ++ lit " a=" ++ Q ++ lit "2" ++ Q)
  = {[ lit "a" := lit "2" ]} /\
  parseAttrs (lit " __proto__=" ++ Q ++ lit "x" ++ Q) = ∅.
Proof. split; vm_compute; reflexivity. Qed.

(** C3 at a close marker written without its inner spaces.  With no block
    pending, the line has no legacy literal, the open-marker pattern matches
    at its start and the close-marker pattern matches the rest of the line
    behind the text [stuck], so [feed] takes the self-closing branch: it
    returns a Signal at once and leaves the parser as it was.  But the
    branch then looks for the close marker a second time, as the fixed text
    with one space on either side of [/SIGNAL]; the search fails and the
    body returned is empty, not the text [stuck] between the two markers.
    The same three parts on three lines, and the same line with the spaces
    in the close marker, both give the body [stuck]. *)
Theorem self_closing_compact_close_marker :
  let line := lit "<!-- SIGNAL:BLOCKED -->stuck<!--/SIGNAL-->" in
  let open := {| m_index := 0; m_text := lit "<!-- SIGNAL:BLOCKED -->";
                 m_caps := [(2%nat, []); (1%nat, lit "BLOCKED")] |} in
  let afterOpen := slice_from line (m_index open + length (m_text open)) in
  includes line LEGACY = false /\
  exec SIGNAL_OPEN line = Some open /\
  afterOpen = lit "stuck<!--/SIGNAL-->" /\
  exec SIGNAL_CLOSE afterOpen
  = Some {| m_index := 5; m_text := lit "<!--/SIGNAL-->"; m_caps := [] |} /\
  test SIGNAL_CLOSE line = true /\
  indexOf afterOpen CLOSE_LITERAL = (-1)%Z /\
  feed fresh line
  = (fresh, Some {| type := lit "BLOCKED"; attrs := ∅; body := [] |}) /\
  feed_lines fresh [lit "<!-- SIGNAL:BLOCKED -->"; lit "stuck"; lit "<!--/SIGNAL-->"]
  = (fresh, [None; None;
             Some {| type := lit "BLOCKED"; attrs := ∅; body := lit "stuck" |}]) /\
  feed fresh (lit "<!-- SIGNAL:BLOCKED -->stuck<!-- /SIGNAL -->")
  = (fresh, Some {| type := lit "BLOCKED"; attrs := ∅; body := lit "stuck" |}).
Proof. cbv zeta. repeat split; vm_compute; reflexivity. Qed.

(** C8 at a stream that ends inside a line: the child writes one complete
    line and an unfinished one on standard error; only the complete line
    reaches the parent's error stream. *)
Theorem stderr_partial_line_dropped :
  snd (spawnAgent quiet
         {| c_stdout := None;
            c_stderr := Some [bytes "warn: a" ++ [10] ++ bytes "fatal: b"];
            c_exited := 1 |} [])
  = [StderrWrite (lit "warn: a" ++ NL)].
Proof. vm_compute. reflexivity. Qed.

End Examples.

(** * Further properties of the code *)

(** ** Trimming, splitting and joining *)

Module TextFacts.
Import SpawnFacts.

Lemma trim_start_head (s : jsstring) (c : char) :
  head (trim_start s) = Some c -> is_space c = false.
Proof.
  induction s as [|d s IH]; simpl; [done|].
  destruct (is_space d) eqn:E; [done|]. simpl. by intros [= <-].
Qed.

Lemma trim_start_suffix (s : jsstring) :
  exists sp, s = sp ++ trim_start s.
Proof.
  induction s as [|d s [sp IH]]; simpl; [by exists []|].
  destruct (is_space d).
  - exists (d :: sp). simpl. by f_equal.
  - by exists [].
Qed.

Lemma trim_end_prefix (s : jsstring) :
  exists sp, s = trim_end s ++ sp.
Proof.
  unfold trim_end. destruct (trim_start_suffix (reverse s)) as [sp H].
  exists (reverse sp). rewrite <- reverse_app, <- H. by rewrite reverse_involutive.
Qed.

Lemma trim_end_last (s : jsstring) (c : char) :
  last (trim_end s) = Some c -> is_space c = false.
Proof. unfold trim_end. rewrite last_reverse. apply trim_start_head. Qed.

(** [trim] leaves no white space at either end. *)
Lemma trim_no_edge_space (s : jsstring) : no_edge_space (trim s).
Proof.
  unfold trim. split; [|apply trim_end_last].
  intros c Hc. destruct (trim_end_prefix (trim_start s)) as [sp H].
  apply (trim_start_head s). rewrite H.
  destruct (trim_end (trim_start s)); [done|]. exact Hc.
Qed.

Lemma join_cons (sep p : jsstring) (rest : list jsstring) :
  rest <> [] -> join sep (p :: rest) = p ++ sep ++ join sep rest.
Proof. by destruct rest. Qed.

(** [s.split(NL).join(NL)] is [s]. *)
Lemma join_split_nl (s : jsstring) : join NL (split_nl s) = s.
Proof.
  induction s as [|c s IH]; [done|]. simpl split_nl.
  destruct (c =? 10) eqn:E.
  - apply N.eqb_eq in E as ->.
    rewrite join_cons by apply split_nl_nonempty. by rewrite IH.
  - pose proof (split_nl_nonempty s) as Hne.
    destruct (split_nl s) as [|l ls]; [done|].
    destruct ls as [|l' ls]; simpl in *; by rewrite <- IH.
Qed.

Lemma join_snoc (sep r : jsstring) (ls : list jsstring) :
  ls <> [] -> join sep (ls ++ [r]) = join sep ls ++ sep ++ r.
Proof.
  induction ls as [|l ls IH]; [done|]. intros _.
  destruct ls as [|l' ls]; [done|].
  change ((l :: l' :: ls) ++ [r]) with (l :: ((l' :: ls) ++ [r])).
  rewrite join_cons by (by destruct ls).
  rewrite IH by done. rewrite (join_cons sep l (l' :: ls)) by done.
  by rewrite <- !app_assoc.
Qed.

Lemma pop_snoc (l ls : list jsstring) (r : jsstring) :
  pop l = (ls, Some r) -> l = ls ++ [r].
Proof.
  revert ls. induction l as [|x l IH]; intros ls; [done|].
  destruct l as [|y l].
  - simpl. by intros [= <- <-].
  - change (pop (x :: y :: l)) with (let (r0, z) := pop (y :: l) in (x :: r0, z)).
    destruct (pop (y :: l)) as [r0 z]. intros [= <- ->].
    simpl. f_equal. by apply IH.
Qed.

(** The text is its completed lines and its last partial line, joined. *)
Lemma split_nl_scan (text : jsstring) :
  split_nl text = fst (scan [] text) ++ [snd (scan [] text)].
Proof. apply pop_snoc. apply (pop_split_scan text []), nlfree_nil. Qed.

Lemma chomp_snoc_newline (s : jsstring) : chomp (s ++ NL) = s.
Proof.
  unfold chomp, NL. rewrite reverse_app. simpl. by rewrite reverse_involutive.
Qed.

Lemma chomp_no_newline (s : jsstring) (c : char) :
  c <> 10 -> chomp (s ++ [c]) = s ++ [c].
Proof.
  intros Hc. unfold chomp. rewrite reverse_app. simpl.
  by apply N.eqb_neq in Hc as ->.
Qed.

(** The lines of a text, joined again, are the text without its final
    newline. *)
Lemma join_text_lines (text : jsstring) :
  join NL (text_lines text) = chomp text.
Proof.
  pose proof (join_split_nl text) as Hj. rewrite split_nl_scan in Hj.
  pose proof (scan_nlfree text [] nlfree_nil) as Hr.
  unfold text_lines. destruct (scan [] text) as [ls r]. simpl in Hj, Hr.
  destruct r as [|c r].
  - simpl. rewrite app_nil_r. destruct ls as [|l ls].
    + simpl in Hj. by subst text.
    + rewrite join_snoc in Hj by done. rewrite app_nil_r in Hj.
      rewrite <- Hj. by rewrite chomp_snoc_newline.
  - simpl. rewrite Hj.
    destruct (exists_last (l := c :: r)) as (r' & d & Hd); [done|].
    assert (d <> 10) as Hne.
    { rewrite Hd in Hr. apply Forall_app in Hr as [_ Hr]. by inversion Hr. }
    destruct ls as [|l ls].
    + simpl in Hj. subst text. rewrite Hd. by rewrite chomp_no_newline.
    + rewrite join_snoc in Hj by done. rewrite <- Hj.
      rewrite Hd, !app_assoc. by rewrite chomp_no_newline.
Qed.

End TextFacts.

(** ** The runner as the parser run over the lines of the output *)

Module RunnerFacts.
Import JsStringFacts SignalsFacts SpawnFacts TextFacts.

(** X7: every body [feed] returns is trimmed: it neither starts nor ends with
    white space, whatever the parser state and the line. *)
Theorem feed_body_trimmed (p : SignalParser) (line : jsstring) (sig : Signal) :
  snd (feed p line) = Some sig -> no_edge_space (body sig).
Proof.
  unfold feed. destruct (includes line LEGACY).
  - intros [= <-]. by split.
  - destruct (pending p) as [[ty at_]|].
    + destruct (test SIGNAL_CLOSE line).
      * intros [= <-]. apply trim_no_edge_space.
      * destruct (exec SIGNAL_OPEN line); [|done]. simpl. done.
    + destruct (exec SIGNAL_OPEN line) as [m|]; [|done].
      destruct (test SIGNAL_CLOSE line); [|done]. cbv zeta.
      intros [= <-]. simpl.
      destruct (0 <=? _)%Z; [apply trim_no_edge_space | by split].
Qed.

Lemma feed_body_trimmed_witness :
  no_edge_space (lit "pick one <!--/SIGNAL-->").
Proof.
  apply (feed_body_trimmed fresh
           (lit "ok <!-- SIGNAL:CHECKPOINT type=" ++ Q ++ lit "decision" ++ Q
            ++ lit " -->  pick one <!--/SIGNAL--> <!-- /SIGNAL --> tail")
           {| type := lit "CHECKPOINT";
              attrs := {[ lit "type" := lit "decision" ]};
              body := lit "pick one <!--/SIGNAL-->" |}).
  vm_compute. reflexivity.
Defined.

(** The standard-output branch, line after line, is [feed] line after
    line: the parser moves as [feed_lines] says and the signals it returns
    are appended in order. *)
Lemma stdout_lines_feed (opts : SpawnOptions) (lines : list jsstring) (w : World) :
  parser (fold_left (on_stdout_line opts) lines w)
  = fst (feed_lines (parser w) lines) /\
  signals (fold_left (on_stdout_line opts) lines w)
  = signals w ++ returned (snd (feed_lines (parser w) lines)).
Proof.
  revert w. induction lines as [|l lines IH]; intros w.
  - simpl. by rewrite app_nil_r.
  - cbn [fold_left feed_lines]. destruct (IH (on_stdout_line opts w l)) as [H1 H2].
    rewrite H1, H2. unfold on_stdout_line.
    destruct (feed (parser w) l) as [p' [sig|]]; cbn [parser signals];
      destruct (feed_lines p' lines) as [p2 rs]; cbn [fst snd returned omap id];
      [by rewrite <- app_assoc | done].
Qed.

Lemma spawn_signals (opts : SpawnOptions) (child : Child) (sched : list bool) :
  AgentResult.signals (fst (spawnAgent opts child sched))
  = returned (snd (feed_lines fresh (text_lines (child_text (c_stdout child))))).
Proof.
  rewrite spawn_result. cbn [AgentResult.signals].
  destruct (stdout_lines_feed opts (text_lines (child_text (c_stdout child))) world0)
    as [_ H].
  exact H.
Qed.

(** X8: the signals of a run are the signals that [feed], started on a fresh
    parser, returns on the lines of the child's standard output, in that
    order; the exit code is the child's.  Neither depends on the
    callbacks, on standard error or on the order of the reads. *)
Theorem spawn_signals_are_feed_results (opts : SpawnOptions) (child : Child)
    (sched : list bool) :
  AgentResult.signals (fst (spawnAgent opts child sched))
  = returned (snd (feed_lines fresh (text_lines (child_text (c_stdout child))))) /\
  AgentResult.exitCode (fst (spawnAgent opts child sched)) = c_exited child.
Proof.
  split; [apply spawn_signals | by rewrite spawn_result].
Qed.

(** X9: the aggregated output of a run is the decoded text of the child's
    standard output without its final newline, when it has one. *)
Theorem spawn_stdout_is_text (opts : SpawnOptions) (child : Child)
    (sched : list bool) :
  AgentResult.stdout (fst (spawnAgent opts child sched))
  = chomp (child_text (c_stdout child)).
Proof. by rewrite spawn_stdout, join_text_lines. Qed.

End RunnerFacts.

(** ** The callers *)

Module CallersFacts.
Import JsStringFacts SignalsFacts SpawnFacts TextFacts RunnerFacts.

Lemma includes_inv (s pat : jsstring) :
  includes s pat = true -> exists a b, s = a ++ pat ++ b.
Proof.
  unfold includes. intros H%Z.leb_le.
  pose proof (indexOf_inv s pat _ H eq_refl) as Hs. eauto.
Qed.

(** An occurrence of [pat] in a text cut at a character that [pat] does
    not hold lies on one side of the cut. *)
Lemma occurrence_one_side (x y a pat b : jsstring) (c : char) :
  c ∉ pat -> pat <> [] ->
  x ++ c :: y = a ++ pat ++ b ->
  (exists b', x = a ++ pat ++ b') \/ (exists a', y = a' ++ pat ++ b).
Proof.
  intros Hc Hne H. apply List.app_eq_app in H as [l [[-> H]|[-> H]]].
  - apply List.app_eq_app in H as [l' [[-> H]|[-> H]]].
    + destruct l' as [|c' l'].
      * left. exists []. by rewrite !app_nil_r.
      * injection H as -> _. exfalso. apply Hc.
        apply elem_of_app. right. by left.
    + left. by exists l'.
  - destruct l as [|c' l].
    + destruct pat as [|c' pat]; [done|].
      injection H as -> _. exfalso. apply Hc. by left.
    + injection H as _ ->. right. eauto.
Qed.

(** A newline-free pattern found in joined lines is found in one of the
    lines. *)
Lemma includes_join (pat : jsstring) (lines : list jsstring) :
  10 ∉ pat -> pat <> [] ->
  includes (join NL lines) pat = true ->
  Exists (fun line => includes line pat = true) lines.
Proof.
  intros Hc Hne. induction lines as [|l lines IH].
  - intros (a & b & H)%includes_inv. simpl in H.
    destruct a; [destruct pat|]; done.
  - destruct lines as [|l' lines].
    + intros H. by constructor.
    + rewrite join_cons by done. intros (a & b & H)%includes_inv.
      apply occurrence_one_side in H as [[b' ->]|[a' H]]; [| |done|done].
      * constructor. apply includes_app.
      * apply Exists_cons_tl, IH. rewrite H. apply includes_app.
Qed.

Lemma legacy_no_newline : 10 ∉ LEGACY.
Proof. intros H%list_elem_of_In. vm_compute in H. intuition discriminate. Qed.

(** A line with the legacy literal puts the COMPLETE signal among the
    returned signals, wherever it stands. *)
Lemma legacy_line_returned (lines : list jsstring) (p : SignalParser) :
  Exists (fun line => includes line LEGACY = true) lines ->
  COMPLETE_SIGNAL ∈ returned (snd (feed_lines p lines)).
Proof.
  intros H. revert p. induction H as [l lines H|l lines H IH]; intros p.
  - simpl. rewrite feed_legacy by done.
    destruct (feed_lines p lines) as [p2 rs]. simpl. by left.
  - simpl. destruct (feed p l) as [p1 r].
    specialize (IH p1). destruct (feed_lines p1 lines) as [p2 rs].
    simpl in *. destruct r; simpl; [by right | done].
Qed.

(** X12: in the Ralph loop the search of the aggregated output for the
    legacy literal adds nothing: whenever the output of a run holds the
    literal, the signal list holds a COMPLETE signal, so [hasComplete] is
    the test on the signal list alone. *)
Theorem hasComplete_is_signal_test (opts : SpawnOptions) (child : Child)
    (sched : list bool) :
  let result := fst (spawnAgent opts child sched) in
  hasComplete result = some_of_type (lit "COMPLETE") (AgentResult.signals result).
Proof.
  cbv zeta. unfold hasComplete.
  destruct (includes _ LEGACY) eqn:E; [|by rewrite orb_false_r].
  rewrite orb_true_r. symmetry.
  rewrite spawn_stdout in E.
  apply includes_join in E; [| apply legacy_no_newline | done].
  rewrite spawn_signals.
  apply (legacy_line_returned _ fresh) in E.
  unfold some_of_type. apply existsb_exists. exists COMPLETE_SIGNAL.
  split; [by apply list_elem_of_In | by apply bool_decide_eq_true].
Qed.

End CallersFacts.

(** ** The matcher finds only what the pattern describes *)

Module MatcherFacts.
Import RegexFacts.

Section Soundness.
Context {A : Type}.
Implicit Types (k : jsstring -> caps -> option A) (s : jsstring) (cs : caps).

(** A successful run has matched a prefix of the input as the pattern
    describes, recorded its captures on top of the old ones and called the
    continuation on the rest. *)
Lemma run_sound (r : regex) s cs k (x : A) :
  run r s cs k = Some x ->
  exists w s' n, s = w ++ s' /\ Matches r w n /\ k s' (n ++ cs) = Some x.
Proof.
  revert s cs k.
  induction r as [|c|p|r1 IH1 r2 IH2|r IH|i r IH]; intros s cs k; simpl.
  - intros H. exists [], s, []. repeat split; [constructor | done].
  - destruct s as [|c' s]; [done|]. destruct (c =? c') eqn:E; [|done].
    apply N.eqb_eq in E as <-. intros H.
    exists [c], s, []. repeat split; [constructor | done].
  - destruct s as [|c' s]; [done|]. destruct (p c') eqn:E; [|done].
    intros H. exists [c'], s, []. repeat split; [by constructor | done].
  - intros H. apply IH1 in H as (w1 & s1 & n1 & -> & M1 & H).
    apply IH2 in H as (w2 & s2 & n2 & -> & M2 & H).
    exists (w1 ++ w2), s2, (n2 ++ n1). rewrite <- !app_assoc.
    repeat split; [by constructor | done].
  - generalize (length s) at 1. intros fuel. revert s cs.
    induction fuel as [|fuel IHf]; intros s cs; simpl.
    + intros H. exists [], s, []. repeat split; [constructor | done].
    + destruct (run r s cs _) as [y|] eqn:E.
      * intros [= ->]. apply IH in E as (w1 & s1 & n1 & -> & M1 & E).
        destruct (length s1 <? length (w1 ++ s1))%nat eqn:El; [|done].
        apply Nat.ltb_lt in El. rewrite length_app in El.
        apply IHf in E as (w2 & s2 & n2 & -> & M2 & E).
        exists (w1 ++ w2), s2, (n2 ++ n1). rewrite <- !app_assoc.
        repeat split; [|done]. constructor; [done | | done].
        intros ->. simpl in El. lia.
      * intros H. exists [], s, []. repeat split; [constructor | done].
  - intros H. apply IH in H as (w & s' & n & -> & M & H).
    replace (length (w ++ s') - length s')%nat with (length w) in H
      by (rewrite length_app; lia).
    rewrite take_app_length in H.
    exists w, s', ((i, w) :: n). repeat split; [by constructor | done].
Qed.

End Soundness.

(** What [exec] returns is an occurrence of the pattern: the text at
    [index] is [m[0]], the pattern matches it, and the groups are the
    captures of that match. *)
Lemma exec_from_sound (r : regex) (s : jsstring) (i : nat) (m : rmatch) :
  exec_from r s i = Some m ->
  exists pre post,
    s = pre ++ m_text m ++ post /\ m_index m = (i + length pre)%nat /\
    Matches r (m_text m) (m_caps m).
Proof.
  revert i. induction s as [|c s IH]; intros i; simpl.
  - destruct (run r [] [] _) as [[s' cs]|] eqn:E; [|done]. intros [= <-].
    apply run_sound in E as (w & s1 & n & Hs & M & [= <- <-]).
    symmetry in Hs. apply app_eq_nil in Hs as [-> ->].
    exists [], []. cbn [m_index m_text m_caps]. simpl. rewrite app_nil_r.
    split; [done|]. split; [lia | done].
  - destruct (run r (c :: s) [] _) as [[s' cs]|] eqn:E.
    + intros [= <-].
      apply run_sound in E as (w & s1 & n & Hs & M & [= <- <-]).
      exists [], s1. cbn [m_index m_text m_caps].
      change (S (length s)) with (length (c :: s)). rewrite Hs.
      replace (length (w ++ s1) - length s1)%nat with (length w)
        by (rewrite length_app; lia).
      rewrite take_app_length, app_nil_r. simpl.
      split; [done|]. split; [lia | done].
    + intros H. apply IH in H as (pre & post & -> & Hi & M).
      exists (c :: pre), post. split; [done|]. split; [simpl; lia | done].
Qed.

Lemma Matches_group_free (r : regex) (w : jsstring) (n : caps) :
  group_free r = true -> Matches r w n -> n = [].
Proof.
  intros Hg M. induction M; simpl in Hg; try done.
  - apply andb_prop in Hg as [H1 H2]. by rewrite IHM1, IHM2.
  - by rewrite IHM1, IHM2.
Qed.

Lemma Matches_Str (l w : jsstring) (n : caps) :
  Matches (Str l) w n -> w = l /\ n = [].
Proof.
  revert w n. induction l as [|c l IH]; intros w n M; simpl in M.
  - by inversion M.
  - inversion M as [| | |r1 r2 w1 w2 n1 n2 M1 M2| | |]; subst.
    inversion M1; subst. apply IH in M2 as [-> ->]. done.
Qed.

Lemma Matches_star_cls (p : char -> bool) (w : jsstring) (n : caps) :
  Matches (Star (Cls p)) w n -> Forall (fun c => p c = true) w /\ n = [].
Proof.
  remember (Star (Cls p)) as r eqn:Er. intros M.
  induction M as [| | | |r|r w1 w2 n1 n2 M1 _ Hne M2 IH2|]; try done.
  injection Er as ->. destruct (IH2 eq_refl) as [Hw ->].
  inversion M1; subst. split; [|done]. by constructor.
Qed.

Lemma Matches_plus_cls (p : char -> bool) (w : jsstring) (n : caps) :
  Matches (Plus (Cls p)) w n ->
  w <> [] /\ Forall (fun c => p c = true) w /\ n = [].
Proof.
  intros M. inversion M as [| | |r1 r2 w1 w2 n1 n2 M1 M2| | |]; subst.
  inversion M1; subst. apply Matches_star_cls in M2 as [Hw ->].
  repeat split; [done | by constructor].
Qed.

Lemma Matches_Cat (r1 r2 : regex) (w : jsstring) (n : caps) :
  Matches (Cat r1 r2) w n ->
  exists w1 w2 n1 n2,
    w = w1 ++ w2 /\ n = n2 ++ n1 /\ Matches r1 w1 n1 /\ Matches r2 w2 n2.
Proof. intros M. inversion M; subst. eauto 10. Qed.

Lemma Matches_Grp (i : nat) (r : regex) (w : jsstring) (n : caps) :
  Matches (Grp i r) w n -> exists n', n = (i, w) :: n' /\ Matches r w n'.
Proof. intros M. inversion M; subst. eauto. Qed.

Lemma Matches_Chr (c : char) (w : jsstring) (n : caps) :
  Matches (Chr c) w n -> w = [c] /\ n = [].
Proof. intros M. by inversion M. Qed.

(** What [ATTR_RE] matches: a word, [=], and a quote-free text between
    double quotes; group 1 is the word and group 2 the text. *)
Lemma attr_re_shape (w : jsstring) (n : caps) :
  Matches ATTR_RE w n ->
  exists key value,
    w = attr_text key value /\ n = [(2%nat, value); (1%nat, key)] /\
    word key /\ quote_free value.
Proof.
  unfold ATTR_RE. intros M.
  apply Matches_Cat in M as (w1 & w2 & n1 & n2 & -> & -> & M1 & M).
  apply Matches_Grp in M1 as (n1' & -> & M1).
  apply Matches_plus_cls in M1 as (Hne & Hw & ->).
  apply Matches_Cat in M as (w3 & w4 & n3 & n4 & -> & -> & M3 & M).
  apply Matches_Chr in M3 as [-> ->].
  apply Matches_Cat in M as (w5 & w6 & n5 & n6 & -> & -> & M5 & M).
  apply Matches_Chr in M5 as [-> ->].
  apply Matches_Cat in M as (w7 & w8 & n7 & n8 & -> & -> & M7 & M8).
  apply Matches_Grp in M7 as (n7' & -> & M7).
  apply Matches_star_cls in M7 as (Hv & ->).
  apply Matches_Chr in M8 as [-> ->].
  exists w1, w7. repeat split; try done.
  eapply Forall_impl; [exact Hv|]. simpl. intros c Hc ->. done.
Qed.

(** What [SIGNAL_OPEN] matches: the comment opener, white space,
    [SIGNAL:] and a word, which is group 1; then the attribute text, which
    is group 2, white space and the comment closer. *)
Lemma signal_open_shape (w : jsstring) (n : caps) :
  Matches SIGNAL_OPEN w n ->
  exists ws1 ty raw ws2,
    w = lit "<!--" ++ ws1 ++ lit "SIGNAL:" ++ ty ++ raw ++ ws2 ++ lit "-->" /\
    n = [(2%nat, raw); (1%nat, ty)] /\ word ty /\ blank ws1 /\ blank ws2.
Proof.
  unfold SIGNAL_OPEN. intros M.
  apply Matches_Cat in M as (w1 & w2 & n1 & n2 & -> & -> & M1 & M).
  apply Matches_Str in M1 as [-> ->].
  apply Matches_Cat in M as (w3 & w4 & n3 & n4 & -> & -> & M3 & M).
  apply Matches_star_cls in M3 as [Hs1 ->].
  apply Matches_Cat in M as (w5 & w6 & n5 & n6 & -> & -> & M5 & M).
  apply Matches_Str in M5 as [-> ->].
  apply Matches_Cat in M as (w7 & w8 & n7 & n8 & -> & -> & M7 & M).
  apply Matches_Grp in M7 as (n7' & -> & M7).
  apply Matches_plus_cls in M7 as (Hne & Hw & ->).
  apply Matches_Cat in M as (w9 & w10 & n9 & n10 & -> & -> & M9 & M).
  apply Matches_Grp in M9 as (n9' & -> & M9).
  apply Matches_group_free in M9 as ->; [|done].
  apply Matches_Cat in M as (w11 & w12 & n11 & n12 & -> & -> & M11 & M12).
  apply Matches_star_cls in M11 as [Hs2 ->].
  apply Matches_Str in M12 as [-> ->].
  exists w3, w7, w9, w11. repeat split; done.
Qed.

End MatcherFacts.

(** ** What the parser can return *)

Module ParserFacts.
Import JsStringFacts RegexFacts SignalsFacts MatcherFacts.

(** A match of the global [ATTR_RE] is a pair written in [raw]. *)
Lemma exec_g_attr_sound (raw : jsstring) (lastIndex lastIndex' : nat) (m : rmatch) :
  exec_g ATTR_RE raw lastIndex = (Some m, lastIndex') ->
  word (grp m 1) /\ quote_free (grp m 2) /\
  occurs_in (attr_text (grp m 1) (grp m 2)) raw.
Proof.
  unfold exec_g. destruct (length raw <? lastIndex)%nat; [done|].
  destruct (exec_from ATTR_RE (drop lastIndex raw) lastIndex) as [m'|] eqn:E; [|done].
  intros [= -> <-].
  apply exec_from_sound in E as (pre & post & Hs & _ & M).
  apply attr_re_shape in M as (key & value & Ht & Hc & Hk & Hv).
  unfold grp. rewrite Hc. simpl. repeat split; try apply Hk; try done.
  exists (take lastIndex raw ++ pre), post.
  rewrite <- Ht, <- app_assoc, <- Hs. by rewrite take_drop.
Qed.

Lemma set_attr_lookup (a : Attrs) (key value k v : jsstring) :
  set_attr a key value !! k = Some v ->
  (k = key /\ v = value) \/ a !! k = Some v.
Proof.
  unfold set_attr, Attrs in *. case_bool_decide; [by right|].
  destruct (decide (key = k)) as [->|Hne].
  - rewrite lookup_insert_eq. intros [= <-]. by left.
  - rewrite lookup_insert_ne by done. by right.
Qed.

Lemma parseAttrs_loop_sound (P : jsstring -> jsstring -> Prop) (raw : jsstring)
    (fuel lastIndex : nat) (a : Attrs) :
  (forall key value, word key -> quote_free value ->
                     occurs_in (attr_text key value) raw -> P key value) ->
  (forall k v, a !! k = Some v -> P k v) ->
  forall k v, parseAttrs_loop fuel raw lastIndex a !! k = Some v -> P k v.
Proof.
  intros HP. revert lastIndex a. induction fuel as [|fuel IH]; intros li a Ha; [done|].
  simpl. destruct (exec_g ATTR_RE raw li) as [[m|] li'] eqn:E; [|done].
  apply exec_g_attr_sound in E as (Hk & Hv & Ho).
  apply IH. intros k v [[-> ->]|H]%set_attr_lookup; [by apply HP | by apply Ha].
Qed.

Lemma parseAttrs_pairs (raw key value : jsstring) :
  parseAttrs raw !! key = Some value ->
  word key /\ quote_free value /\ occurs_in (attr_text key value) raw.
Proof.
  apply (parseAttrs_loop_sound
           (fun k v => word k /\ quote_free v /\ occurs_in (attr_text k v) raw)).
  - done.
  - intros k v H. unfold Attrs in *. by rewrite lookup_empty in H.
Qed.

(** X2: [parseAttrs] invents nothing: every attribute it returns stands in
    the raw text as the key, [=] and the value between double quotes; the
    key is a word and the value holds no double quote. *)
Theorem parseAttrs_sound (raw key value : jsstring) :
  parseAttrs raw !! key = Some value ->
  word key /\ quote_free value /\ occurs_in (attr_text key value) raw.
Proof. apply parseAttrs_pairs. Qed.

Lemma parseAttrs_sound_witness :
  word (lit "task") /\ quote_free (lit "T1") /\
  occurs_in (attr_text (lit "task") (lit "T1"))
    (lit " task=" ++ Q ++ lit "T1" ++ Q ++ lit " junk= task").
Proof.
  apply (parseAttrs_sound (lit " task=" ++ Q ++ lit "T1" ++ Q ++ lit " junk= task")).
  vm_compute. reflexivity.
Defined.

(** What [exec] finds for [SIGNAL_OPEN]: group 1 is a word. *)
Lemma exec_open_type (line : jsstring) (m : rmatch) :
  exec SIGNAL_OPEN line = Some m -> word (grp m 1).
Proof.
  intros (pre & post & _ & _ & M)%exec_from_sound.
  apply signal_open_shape in M as (ws1 & ty & raw & ws2 & _ & Hc & Hw & _).
  unfold grp. by rewrite Hc.
Qed.

Lemma parseAttrs_well_formed (raw key value : jsstring) :
  parseAttrs raw !! key = Some value -> word key /\ quote_free value.
Proof. intros H. apply parseAttrs_pairs in H as (? & ? & _). done. Qed.

Lemma complete_well_formed : well_formed COMPLETE_SIGNAL.
Proof.
  split; [|intros k v H; simpl in H; unfold Attrs in *; by rewrite lookup_empty in H].
  split; [done|]. repeat constructor.
Qed.

Lemma feed_well_formed (p : SignalParser) (line : jsstring) :
  pending_well_formed p ->
  pending_well_formed (fst (feed p line)) /\
  forall sig, snd (feed p line) = Some sig -> well_formed sig.
Proof.
  intros Hp. unfold feed. destruct (includes line LEGACY).
  { split; [done|]. intros sig [= <-]. apply complete_well_formed. }
  destruct (pending p) as [[ty at_]|] eqn:Ep.
  - destruct (test SIGNAL_CLOSE line).
    + split; [done|]. intros sig [= <-]. by apply Hp.
    + destruct (exec SIGNAL_OPEN line) as [m|] eqn:Eo; cbn [fst snd].
      * split; [|done]. intros ty' at' [= <- <-].
        split; [by apply exec_open_type in Eo | apply parseAttrs_well_formed].
      * split; [|done]. intros ty' at' [= <- <-]. by apply Hp.
  - destruct (exec SIGNAL_OPEN line) as [m|] eqn:Eo; [|by split].
    destruct (test SIGNAL_CLOSE line); cbv zeta; cbn [fst snd].
    + split; [done|]. intros sig [= <-].
      split; [by apply exec_open_type in Eo | apply parseAttrs_well_formed].
    + split; [|done]. intros ty' at' [= <- <-].
      split; [by apply exec_open_type in Eo | apply parseAttrs_well_formed].
Qed.

Lemma feed_lines_well_formed (lines : list jsstring) (p : SignalParser) :
  pending_well_formed p ->
  Forall well_formed (returned (snd (feed_lines p lines))).
Proof.
  revert p. induction lines as [|l lines IH]; intros p Hp; [constructor|].
  simpl. destruct (feed_well_formed p l Hp) as [H1 H2].
  destruct (feed p l) as [p1 r]. specialize (IH p1 H1).
  destruct (feed_lines p1 lines) as [p2 rs]. simpl in *.
  destruct r as [sig|]; simpl; [|done]. constructor; [by apply H2 | done].
Qed.

(** X6: every signal the parser returns, on whatever lines it is fed from
    its fresh state, is well formed: its type is a word, its attribute keys
    are words and its attribute values hold no double quote. *)
Theorem returned_signals_well_formed (lines : list jsstring) :
  Forall well_formed (returned (snd (feed_lines fresh lines))).
Proof. apply feed_lines_well_formed. intros ty at_ H. discriminate. Qed.

End ParserFacts.

(** ** The matcher finds what the protocol writes *)

Module WireFacts.
Import JsStringFacts RegexFacts SignalsFacts MatcherFacts.

Lemma word_not_space (c : char) : is_word c = true -> is_space c = false.
Proof.
  intros Hw. destruct (is_space c) eqn:Hs; [|done]. exfalso.
  unfold is_word, is_space in *.
  repeat (progress rewrite ?orb_true_iff, ?andb_true_iff, ?N.leb_le, ?N.eqb_eq in Hw).
  repeat (progress rewrite ?orb_true_iff, ?andb_true_iff, ?N.leb_le, ?N.eqb_eq in Hs).
  lia.
Qed.

Section Greedy.
Context {A : Type}.
Implicit Types (k : jsstring -> caps -> option A) (s w : jsstring) (cs : caps).

Lemma run_grp (i : nat) (r : regex) s cs k :
  run (Grp i r) s cs k
  = run r s cs (fun s' cs' => k s' ((i, take (length s - length s') s) :: cs')).
Proof. done. Qed.

Lemma run_chr (c : char) s cs k :
  run (Chr c) (c :: s) cs k = k s cs.
Proof. simpl. by rewrite N.eqb_refl. Qed.

Lemma run_cls (p : char -> bool) (c : char) s cs k :
  p c = true -> run (Cls p) (c :: s) cs k = k s cs.
Proof. simpl. by intros ->. Qed.

Lemma run_cls_fail (p : char -> bool) s cs k :
  stops p s -> run (Cls p) s cs k = None.
Proof. destruct s as [|c s]; simpl; [done|]. by intros ->. Qed.

(** A greedy star over a class takes the whole run of characters of the
    class when the rest of the pattern then succeeds. *)
Lemma run_star_cls_greedy (p : char -> bool) w s cs k (x : A) :
  Forall (fun c => p c = true) w -> stops p s ->
  k s cs = Some x ->
  run (Star (Cls p)) (w ++ s) cs k = Some x.
Proof.
  intros Hw Hs Hk. induction Hw as [|c w Hc _ IH].
  - destruct s as [|c s]; [done|]. simpl app. by rewrite run_star_cls_stop.
  - simpl app. by rewrite run_star_cls_cons, Hc, IH.
Qed.

Lemma run_plus_cls_greedy (p : char -> bool) w s cs k (x : A) :
  w <> [] -> Forall (fun c => p c = true) w -> stops p s ->
  k s cs = Some x ->
  run (Plus (Cls p)) (w ++ s) cs k = Some x.
Proof.
  intros Hne Hw Hs Hk. destruct w as [|c w]; [done|].
  inversion Hw as [|? ? Hc Hw']; subst.
  unfold Plus. rewrite run_cat. simpl app. rewrite run_cls by done.
  by apply run_star_cls_greedy.
Qed.

Lemma take_prefix_length w s : take (length (w ++ s) - length s) (w ++ s) = w.
Proof.
  replace (length (w ++ s) - length s)%nat with (length w)
    by (rewrite length_app; lia).
  apply take_app_length.
Qed.

Lemma run_grp_plus_cls_greedy (i : nat) (p : char -> bool) w s cs k (x : A) :
  w <> [] -> Forall (fun c => p c = true) w -> stops p s ->
  k s ((i, w) :: cs) = Some x ->
  run (Grp i (Plus (Cls p))) (w ++ s) cs k = Some x.
Proof.
  intros Hne Hw Hs Hk. rewrite run_grp.
  apply run_plus_cls_greedy; try done. by rewrite take_prefix_length.
Qed.

Lemma run_grp_star_cls_greedy (i : nat) (p : char -> bool) w s cs k (x : A) :
  Forall (fun c => p c = true) w -> stops p s ->
  k s ((i, w) :: cs) = Some x ->
  run (Grp i (Star (Cls p))) (w ++ s) cs k = Some x.
Proof.
  intros Hw Hs Hk. rewrite run_grp.
  apply run_star_cls_greedy; try done. by rewrite take_prefix_length.
Qed.

Lemma quote_free_not_quote (value : jsstring) :
  quote_free value -> Forall (fun c => negb (c =? 34) = true) value.
Proof.
  intros H. eapply Forall_impl; [exact H|].
  intros c Hc. apply negb_true_iff. by apply N.eqb_neq.
Qed.

(** [ATTR_RE] on a pair as the protocol writes it. *)
Lemma run_attr_re (key value rest : jsstring) cs k (x : A) :
  word key -> quote_free value ->
  k rest ((2%nat, value) :: (1%nat, key) :: cs) = Some x ->
  run ATTR_RE (attr_text key value ++ rest) cs k = Some x.
Proof.
  intros [Hne Hw] Hv Hk. unfold ATTR_RE, attr_text, wd, not_quote.
  rewrite <- !app_assoc. rewrite run_cat.
  apply run_grp_plus_cls_greedy; [done | done | done |].
  simpl app. rewrite run_cat, run_chr, run_cat, run_chr, run_cat.
  apply run_grp_star_cls_greedy; [by apply quote_free_not_quote | done |].
  by rewrite run_chr.
Qed.

(** One attribute pair of [SIGNAL_OPEN] on a pair as the protocol writes
    it, after one space. *)
Lemma run_attr_pair (key value rest : jsstring) cs k (x : A) :
  word key -> quote_free value ->
  k rest cs = Some x ->
  run ATTR_PAIR (32 :: attr_text key value ++ rest) cs k = Some x.
Proof.
  intros [Hne Hw] Hv Hk. unfold ATTR_PAIR, attr_text, wd, sp, not_quote.
  rewrite <- !app_assoc. rewrite run_cat.
  apply (run_plus_cls_greedy is_space [32]); [done | by repeat constructor | |].
  { destruct key as [|c key]; [done|]. simpl. apply word_not_space.
    by inversion Hw. }
  rewrite run_cat. apply run_plus_cls_greedy; [done | done | done |].
  simpl app. rewrite run_cat, run_chr, run_cat, run_chr, run_cat.
  apply run_star_cls_greedy; [by apply quote_free_not_quote | done |].
  by rewrite run_chr.
Qed.

Lemma run_attr_re_fail s cs k : stops is_word s -> run ATTR_RE s cs k = None.
Proof.
  intros H. unfold ATTR_RE, Plus, wd. rewrite run_cat, run_grp, run_cat.
  by apply run_cls_fail.
Qed.

(** An attribute pair cannot start at white space followed by anything
    but a word. *)
Lemma run_attr_pair_fail (c : char) s cs k :
  is_space c = false -> is_word c = false ->
  run ATTR_PAIR (32 :: c :: s) cs k = None.
Proof.
  intros Hs Hw. unfold ATTR_PAIR, Plus, sp, wd.
  rewrite run_cat, run_cat, run_cls by done.
  rewrite run_star_cls_stop by done. rewrite run_cat, run_cat.
  by apply run_cls_fail.
Qed.

Lemma run_star (r : regex) s cs k :
  run (Star r) s cs k
  = star_loop (fun s' cs' k' => run r s' cs' k') k (length s) s cs.
Proof. done. Qed.

(** The star over attribute pairs takes all the pairs the protocol
    writes, when no further pair starts behind them and the rest of the
    pattern then succeeds. *)
Lemma run_star_attr_pairs (pairs : list (jsstring * jsstring)) (tail : jsstring)
    cs k (x : A) :
  Forall (fun kv => word (fst kv) /\ quote_free (snd kv)) pairs ->
  (forall k', run ATTR_PAIR tail cs k' = None) ->
  k tail cs = Some x ->
  run (Star ATTR_PAIR) (attrs_text pairs ++ tail) cs k = Some x.
Proof.
  intros Hp Ht Hk. induction Hp as [|[key value] pairs [Hkey Hval] _ IH].
  - simpl app. rewrite run_star. destruct (length tail); cbn [star_loop]; [done|].
    by rewrite Ht.
  - cbn [attrs_text fst snd] in *. rewrite <- !app_assoc. simpl app.
    rewrite run_star. cbn [length star_loop].
    erewrite run_attr_pair; [done | done | done |].
    assert (Nat.ltb (length (attrs_text pairs ++ tail))
              (S (length (attr_text key value ++ attrs_text pairs ++ tail))) = true)
      as -> by (apply Nat.ltb_lt; rewrite !length_app; lia).
    rewrite (star_loop_fuel ATTR_PAIR k _ (length (attrs_text pairs ++ tail)));
      [by rewrite <- run_star | rewrite !length_app; lia | done].
Qed.

End Greedy.

Lemma exec_from_eq (r : regex) (s : jsstring) (idx : nat) :
  exec_from r s idx
  = match run r s [] (fun s' cs => Some (s', cs)) with
    | Some (s', cs) =>
        Some {| m_index := idx; m_text := take (length s - length s') s;
                m_caps := cs |}
    | None =>
        match s with
        | [] => None
        | _ :: s' => exec_from r s' (S idx)
        end
    end.
Proof. by destruct s. Qed.

(** The next match of [ATTR_RE] in the text of a pair, found from the
    space before it. *)
Lemma exec_from_attr_pair (key value rest : jsstring) (i : nat) :
  word key -> quote_free value ->
  exec_from ATTR_RE (32 :: attr_text key value ++ rest) i
  = Some {| m_index := S i; m_text := attr_text key value;
            m_caps := [(2%nat, value); (1%nat, key)] |}.
Proof.
  intros Hk Hv. rewrite exec_from_eq, run_attr_re_fail by done.
  rewrite exec_from_eq.
  rewrite (run_attr_re key value rest [] _ (rest, [(2%nat, value); (1%nat, key)]))
    by done.
  by rewrite take_prefix_length.
Qed.

Lemma parseAttrs_loop_pairs (pairs : list (jsstring * jsstring))
    (before : jsstring) (a : Attrs) (fuel : nat) :
  Forall (fun kv => word (fst kv) /\ quote_free (snd kv)) pairs ->
  (length (attrs_text pairs) < fuel)%nat ->
  parseAttrs_loop fuel (before ++ attrs_text pairs) (length before) a
  = fold_left (fun a kv => set_attr a (fst kv) (snd kv)) pairs a.
Proof.
  intros Hp. revert before a fuel.
  induction Hp as [|[key value] pairs [Hkey Hval] _ IH]; intros before a fuel Hf.
  - destruct fuel as [|fuel]; [simpl in Hf; lia|]. simpl.
    unfold exec_g. rewrite app_nil_r.
    assert (Nat.ltb (length before) (length before) = false) as ->
      by (apply Nat.ltb_ge; lia).
    rewrite drop_all. rewrite exec_from_eq, run_attr_re_fail by done. done.
  - destruct fuel as [|fuel]; [lia|]. cbn [parseAttrs_loop fold_left fst snd].
    cbn [attrs_text fst snd] in *.
    unfold exec_g.
    assert (Nat.ltb
              (length (before ++ [32] ++ attr_text key value ++ attrs_text pairs))
              (length before) = false) as ->
      by (apply Nat.ltb_ge; rewrite length_app; lia).
    rewrite drop_app_length. simpl app.
    rewrite exec_from_attr_pair by done. cbn [m_index m_text].
    unfold grp. cbn [m_caps group Nat.eqb default].
    replace (S (length before) + length (attr_text key value))%nat
      with (length (before ++ 32 :: attr_text key value))
      by (rewrite length_app; simpl; lia).
    replace (before ++ 32 :: attr_text key value ++ attrs_text pairs)
      with ((before ++ 32 :: attr_text key value) ++ attrs_text pairs)
      by (by rewrite <- app_assoc).
    apply IH. simpl in Hf. rewrite length_app in Hf. lia.
Qed.

(** Pairs written as the protocol writes them are read back as
    assignments made in order. *)
Lemma parseAttrs_attrs_text (pairs : list (jsstring * jsstring)) :
  Forall (fun kv => word (fst kv) /\ quote_free (snd kv)) pairs ->
  parseAttrs (attrs_text pairs) = attrs_of pairs.
Proof.
  intros Hp. unfold parseAttrs, attrs_of.
  apply (parseAttrs_loop_pairs pairs [] ∅); [done | lia].
Qed.

Lemma stops_word_attrs_text (pairs : list (jsstring * jsstring)) (s : jsstring) :
  stops is_word (attrs_text pairs ++ 32 :: s).
Proof. by destruct pairs as [|[key value] pairs]. Qed.

(** [SIGNAL_OPEN] on an open marker as the protocol writes it: the match
    is the marker, group 1 its type and group 2 its attribute text. *)
Lemma run_signal_open (ty : jsstring) (pairs : list (jsstring * jsstring))
    (post : jsstring) :
  word ty ->
  Forall (fun kv => word (fst kv) /\ quote_free (snd kv)) pairs ->
  run SIGNAL_OPEN (open_marker ty pairs ++ post) [] (fun s' cs => Some (s', cs))
  = Some (post, [(2%nat, attrs_text pairs); (1%nat, ty)]).
Proof.
  intros [Hne Hw] Hp.
  change SIGNAL_OPEN with
    (Cat (Str (lit "<!--")) (Cat (Star sp) (Cat (Str (lit "SIGNAL:"))
       (Cat (Grp 1 (Plus wd)) (Cat (Grp 2 (Star ATTR_PAIR))
          (Cat (Star sp) (Str (lit "-->")))))))).
  replace (open_marker ty pairs ++ post)
    with (lit "<!--" ++ [32] ++ lit "SIGNAL:" ++ ty
          ++ attrs_text pairs ++ 32 :: lit "-->" ++ post)
    by (unfold open_marker; by rewrite <- !app_assoc).
  unfold sp, wd. rewrite run_cat, run_str_app, run_cat.
  apply run_star_cls_greedy; [by repeat constructor | done |].
  rewrite run_cat, run_str_app, run_cat.
  apply run_grp_plus_cls_greedy; [done | done | apply stops_word_attrs_text |].
  rewrite run_cat, run_grp.
  apply run_star_attr_pairs; [done | |].
  { intros k'. by apply run_attr_pair_fail. }
  rewrite take_prefix_length, run_cat.
  apply (run_star_cls_greedy is_space [32]); [by repeat constructor | done |].
  by rewrite run_str_app.
Qed.

Lemma exec_signal_open (ty : jsstring) (pairs : list (jsstring * jsstring))
    (post : jsstring) :
  word ty ->
  Forall (fun kv => word (fst kv) /\ quote_free (snd kv)) pairs ->
  exec SIGNAL_OPEN (open_marker ty pairs ++ post)
  = Some {| m_index := 0; m_text := open_marker ty pairs;
            m_caps := [(2%nat, attrs_text pairs); (1%nat, ty)] |}.
Proof.
  intros Hw Hp. unfold exec. rewrite exec_from_eq, run_signal_open by done.
  by rewrite take_prefix_length.
Qed.

(** Before the first [<] of a text the canonical close marker cannot
    start. *)
Lemma indexOf_from_close_literal (mid post : jsstring) (i : Z) :
  60 ∉ mid ->
  indexOf_from (mid ++ CLOSE_LITERAL ++ post) CLOSE_LITERAL i
  = (i + Z.of_nat (length mid))%Z.
Proof.
  revert i. induction mid as [|c mid IH]; intros i Hc; rewrite indexOf_from_eq.
  - rewrite app_nil_l, starts_with_app. simpl. lia.
  - assert (c <> 60) as Hne by (intros ->; apply Hc; by left).
    rewrite <- app_comm_cons.
    change CLOSE_LITERAL with (60 :: lit "!-- /SIGNAL -->") at 1.
    cbn [starts_with]. apply N.eqb_neq in Hne. rewrite N.eqb_sym, Hne.
    cbn [andb]. rewrite IH by (intros H; apply Hc; by right).
    simpl length. lia.
Qed.

Lemma feed_inline_block (p : SignalParser) (ty : jsstring)
    (pairs : list (jsstring * jsstring)) (mid post : jsstring) :
  pending p = None ->
  word ty ->
  Forall (fun kv => word (fst kv) /\ quote_free (snd kv)) pairs ->
  60 ∉ mid ->
  includes (open_marker ty pairs ++ mid ++ CLOSE_LITERAL ++ post) LEGACY = false ->
  feed p (open_marker ty pairs ++ mid ++ CLOSE_LITERAL ++ post)
  = (p, Some {| type := ty; attrs := attrs_of pairs; body := trim mid |}).
Proof.
  intros Hp Hw Hps Hm Hl. unfold feed. rewrite Hl, Hp.
  rewrite exec_signal_open by done.
  rewrite (app_assoc _ mid), test_close_literal, <- (app_assoc _ mid).
  cbv zeta. cbn [m_index m_text]. unfold grp. cbn [m_caps group Nat.eqb default].
  unfold id. rewrite parseAttrs_attrs_text by done.
  unfold slice_from, slice_to. rewrite Nat.add_0_l, drop_app_length.
  unfold indexOf. rewrite indexOf_from_close_literal by done.
  rewrite Z.add_0_l.
  assert ((0 <=? Z.of_nat (length mid))%Z = true) as -> by (apply Z.leb_le; lia).
  by rewrite Nat2Z.id, take_app_length.
Qed.

Lemma feed_lines_block (ty : jsstring)
    (pairs : list (jsstring * jsstring)) (body_lines : list jsstring) :
  word ty ->
  Forall (fun kv => word (fst kv) /\ quote_free (snd kv)) pairs ->
  includes (open_marker ty pairs) LEGACY = false ->
  test SIGNAL_CLOSE (open_marker ty pairs) = false ->
  Forall (fun l => includes l LEGACY = false /\ test SIGNAL_CLOSE l = false
                   /\ exec SIGNAL_OPEN l = None) body_lines ->
  feed_lines fresh (open_marker ty pairs :: body_lines ++ [CLOSE_LITERAL])
  = (fresh, None :: replicate (length body_lines) None
            ++ [Some {| type := ty; attrs := attrs_of pairs;
                        body := trim (join NL body_lines) |}]).
Proof.
  intros Hw Hps Hl Hc Hb.
  pose proof (exec_signal_open ty pairs [] Hw Hps) as Ho.
  rewrite app_nil_r in Ho. cbn [feed_lines].
  rewrite (feed_open _ _ _ Hl Hc Ho).
  unfold grp. cbn [m_caps group Nat.eqb default]. unfold id.
  rewrite parseAttrs_attrs_text by done.
  rewrite feed_lines_body_close; [done | done | by vm_compute | by vm_compute].
Qed.

(** X1: attribute pairs written as the protocol writes them (a space, a word
    as key, [=], a quote-free value between double quotes) are read back by
    [parseAttrs] as the assignments made in order: a later pair with the
    same key wins, and a pair whose key is [__proto__] sets nothing. *)
Theorem parseAttrs_round_trip (pairs : list (jsstring * jsstring)) :
  Forall (fun kv => word (fst kv) /\ quote_free (snd kv)) pairs ->
  parseAttrs (attrs_text pairs)
  = fold_left (fun a kv => if bool_decide (fst kv = lit "__proto__") then a
                           else <[fst kv := snd kv]> a) pairs ∅.
Proof. apply parseAttrs_attrs_text. Qed.

(** X4: a well-formed self-closing block is read back: with no block pending,
    a line that starts with an open marker as the protocol writes it,
    goes on with a text without [<] and the canonical close marker, and
    holds no legacy literal, makes [feed] return the signal of that type,
    with those attributes and with the trimmed text as its body. *)
Theorem self_closing_block_round_trip (p : SignalParser) (ty : jsstring)
    (pairs : list (jsstring * jsstring)) (mid post : jsstring) :
  pending p = None ->
  word ty ->
  Forall (fun kv => word (fst kv) /\ quote_free (snd kv)) pairs ->
  60 ∉ mid ->
  includes (open_marker ty pairs ++ mid ++ CLOSE_LITERAL ++ post) LEGACY = false ->
  feed p (open_marker ty pairs ++ mid ++ CLOSE_LITERAL ++ post)
  = (p, Some {| type := ty; attrs := attrs_of pairs; body := trim mid |}).
Proof. apply feed_inline_block. Qed.

(** X3: a well-formed multi-line block is read back: an open marker as the
    protocol writes it, body lines and the canonical close marker, fed to
    a fresh parser, give nothing until the close marker and then the
    signal of that type, with those attributes and with the body lines
    joined by newline and trimmed; the parser is fresh again. *)
Theorem multiline_block_round_trip (ty : jsstring)
    (pairs : list (jsstring * jsstring)) (body_lines : list jsstring) :
  word ty ->
  Forall (fun kv => word (fst kv) /\ quote_free (snd kv)) pairs ->
  includes (open_marker ty pairs) LEGACY = false ->
  test SIGNAL_CLOSE (open_marker ty pairs) = false ->
  Forall (fun l => includes l LEGACY = false /\ test SIGNAL_CLOSE l = false
                   /\ exec SIGNAL_OPEN l = None) body_lines ->
  feed_lines fresh (open_marker ty pairs :: body_lines ++ [CLOSE_LITERAL])
  = (fresh, None :: replicate (length body_lines) None
            ++ [Some {| type := ty; attrs := attrs_of pairs;
                        body := trim (join NL body_lines) |}]).
Proof. apply feed_lines_block. Qed.

Lemma feed_lines_app (l1 l2 : list jsstring) (p : SignalParser) :
  feed_lines p (l1 ++ l2)
  = (fst (feed_lines (fst (feed_lines p l1)) l2),
     snd (feed_lines p l1) ++ snd (feed_lines (fst (feed_lines p l1)) l2)).
Proof.
  revert p. induction l1 as [|l l1 IH]; intros p; simpl.
  - by destruct (feed_lines p l2).
  - destruct (feed p l) as [p1 r]. rewrite IH.
    by destruct (feed_lines p1 l1) as [p2 rs].
Qed.

Lemma returned_replicate_None (n : nat) (rs : list (option Signal)) :
  returned (replicate n None ++ rs) = returned rs.
Proof. induction n as [|n IH]; [done|]. simpl. exact IH. Qed.

(** One item fed to a fresh parser gives its signal and leaves the
    parser fresh. *)
Lemma feed_lines_item (it : Item) :
  item_ok it ->
  fst (feed_lines fresh (item_lines it)) = fresh /\
  returned (snd (feed_lines fresh (item_lines it))) = item_signals it.
Proof.
  destruct it as [line|ty pairs body_lines|ty pairs text]; simpl item_ok.
  - intros [Hl Ho]. cbn [item_lines feed_lines]. unfold feed. by rewrite Hl, Ho.
  - intros (Hw & Hp & Hl & Hc & Hb). cbn [item_lines].
    rewrite feed_lines_block by done. cbn [fst snd]. split; [done|].
    change (None :: replicate (length body_lines) None ++ ?x)
      with (replicate (S (length body_lines)) None ++ x).
    by rewrite returned_replicate_None.
  - intros (Hw & Hp & Ht & Hl). cbn [item_lines feed_lines].
    pose proof (feed_inline_block fresh ty pairs text [] eq_refl Hw Hp Ht) as H.
    rewrite !app_nil_r in H. by rewrite H.
Qed.

(** X5: blocks and other lines in sequence give one signal for each block, in
    the order of the blocks, and leave the parser fresh. *)
Theorem items_give_signals_in_order (items : list Item) :
  Forall item_ok items ->
  fst (feed_lines fresh (flat_map item_lines items)) = fresh /\
  returned (snd (feed_lines fresh (flat_map item_lines items)))
  = flat_map item_signals items.
Proof.
  induction 1 as [|it items Hit _ [IH1 IH2]]; [done|].
  cbn [flat_map]. rewrite feed_lines_app. cbn [fst snd].
  destruct (feed_lines_item it Hit) as [H1 H2]. rewrite H1.
  split; [done|]. unfold returned in *. by rewrite omap_app, H2, IH2.
Qed.

End WireFacts.

(** ** Echo, error stream and adapters *)

Module ForwardingFacts.
Import JsStringFacts SignalsFacts SpawnFacts MonitorFacts.

Lemma stderr_writes_app (a b : list Effect) :
  stderr_writes (a ++ b) = stderr_writes a ++ stderr_writes b.
Proof. apply omap_app. Qed.

(** *** The echo switch of the monitor *)


(** *** What reaches the parent's error stream *)

Lemma on_stdout_line_stderr (opts : SpawnOptions) (w : World) (line : jsstring) :
  quiet_on_stderr opts ->
  stderr_writes (trace (on_stdout_line opts w line)) = stderr_writes (trace w).
Proof.
  intros [Ho Hs]. unfold on_stdout_line.
  destruct (feed (parser w) line) as [p' [sig|]]; cbn [trace];
    rewrite !stderr_writes_app, ?Ho, ?Hs; by rewrite ?app_nil_r.
Qed.

Lemma stdout_lines_stderr (opts : SpawnOptions) (lines : list jsstring) (w : World) :
  quiet_on_stderr opts ->
  stderr_writes (trace (fold_left (on_stdout_line opts) lines w))
  = stderr_writes (trace w).
Proof.
  intros Hq. revert w. induction lines as [|l lines IH]; intros w; [done|].
  cbn [fold_left]. by rewrite IH, on_stdout_line_stderr.
Qed.

Lemma read_chunk_stdout_stderr {dec} (opts : SpawnOptions) (rd : Reader dec)
    (w : World) (value : chunk) :
  quiet_on_stderr opts ->
  stderr_writes (trace (snd (read_chunk opts true (rd, w) value)))
  = stderr_writes (trace w).
Proof.
  intros Hq. unfold read_chunk.
  destruct (decode dec (dst rd) value) as [d' text].
  destruct (pop (split_nl (buffer rd ++ text))) as [lines last].
  by apply stdout_lines_stderr.
Qed.

Lemma read_end_stdout_stderr {dec} (opts : SpawnOptions) (rd : Reader dec)
    (w : World) :
  quiet_on_stderr opts ->
  stderr_writes (trace (read_end opts true (rd, w))) = stderr_writes (trace w).
Proof.
  intros Hq. unfold read_end.
  destruct ((0 <? length (buffer rd))%nat && true); [|done].
  by apply on_stdout_line_stderr.
Qed.

Lemma drain_stdout_stderr {dec} (opts : SpawnOptions) (t : Task dec) (w : World) :
  quiet_on_stderr opts ->
  stderr_writes (trace (drain opts true t w)) = stderr_writes (trace w).
Proof.
  intros Hq. destruct t as [rd rest|]; [|done]. unfold drain.
  revert rd w. induction rest as [|c rest IH]; intros rd w.
  - by apply read_end_stdout_stderr.
  - cbn [fold_left].
    pose proof (read_chunk_stdout_stderr opts rd w c Hq) as H.
    destruct (read_chunk opts true (rd, w) c) as [rd1 w1].
    rewrite IH. exact H.
Qed.

Lemma step_stdout_stderr {dec} (opts : SpawnOptions) (t : Task dec) (w : World) :
  quiet_on_stderr opts ->
  stderr_writes (trace (snd (step opts true t w))) = stderr_writes (trace w).
Proof.
  intros Hq. destruct t as [rd [|c rest]|]; cbn [step snd]; [| |done].
  - by apply read_end_stdout_stderr.
  - pose proof (read_chunk_stdout_stderr opts rd w c Hq) as H.
    by destruct (read_chunk opts true (rd, w) c).
Qed.

Lemma read_loop_stderr_writes {dec} (opts : SpawnOptions) (rest : list chunk)
    (rd : Reader dec) (w w' : World) :
  stderr_writes (trace w) = stderr_writes (trace w') ->
  fst (fold_left (read_chunk opts false) rest (rd, w))
  = fst (fold_left (read_chunk opts false) rest (rd, w')) /\
  stderr_writes (trace (snd (fold_left (read_chunk opts false) rest (rd, w))))
  = stderr_writes (trace (snd (fold_left (read_chunk opts false) rest (rd, w')))).
Proof.
  revert rd w w'. induction rest as [|c rest IH]; intros rd w w' H; [done|].
  cbn [fold_left]. unfold read_chunk at 2 4 6 8.
  destruct (decode dec (dst rd) c) as [d' text].
  destruct (pop (split_nl (buffer rd ++ text))) as [lines last].
  apply IH. change (on_line opts false) with on_stderr_line.
  by rewrite !stderr_lines_trace, !stderr_writes_app, H.
Qed.

(** The writes of the standard-error reader do not depend on what is
    in the world it starts from. *)
Lemma drain_stderr_writes {dec} (opts : SpawnOptions) (t : Task dec) (w w' : World) :
  stderr_writes (trace w) = stderr_writes (trace w') ->
  stderr_writes (trace (drain opts false t w))
  = stderr_writes (trace (drain opts false t w')).
Proof.
  intros H. destruct t as [rd rest|]; [|done]. unfold drain.
  destruct (read_loop_stderr_writes opts rest rd w w' H) as [H1 H2].
  destruct (fold_left _ rest (rd, w)) as [rd1 w1].
  destruct (fold_left _ rest (rd, w')) as [rd1' w1'].
  simpl in H1, H2. subst rd1'. unfold read_end. by rewrite andb_false_r.
Qed.

Lemma race_stderr {dec} (opts : SpawnOptions) (sched : list bool)
    (tout terr : Task dec) (w : World) :
  quiet_on_stderr opts ->
  stderr_writes (trace (race opts sched tout terr w))
  = stderr_writes (trace (drain opts false terr w)).
Proof.
  intros Hq. revert tout terr w.
  induction sched as [|b sched IH]; intros tout terr w.
  - cbn [race]. apply drain_stderr_writes. by apply drain_stdout_stderr.
  - destruct b; cbn [race].
    + pose proof (step_stdout_stderr opts tout w Hq) as H.
      destruct (step opts true tout w) as [tout' w']. cbn [snd] in H.
      rewrite IH. by apply drain_stderr_writes.
    + pose proof (step_drain opts false terr w) as H.
      destruct (step opts false terr w) as [terr' w']. cbn [fst snd] in H.
      by rewrite IH, H.
Qed.

Lemma stderr_writes_map (lines : list jsstring) :
  stderr_writes (map (fun line => StderrWrite (line ++ NL)) lines)
  = map (fun line => line ++ NL) lines.
Proof. induction lines as [|l lines IH]; [done|]. simpl. by rewrite <- IH. Qed.

(** X10: with callbacks that do not write there themselves, what a run
    writes to the parent's error stream is, whatever the order of the
    reads, each line of the child's standard error that a newline ends,
    with its newline, in order; the text behind the last newline is not
    written. *)
Theorem stderr_forwards_complete_lines (opts : SpawnOptions) (child : Child)
    (sched : list bool) :
  quiet_on_stderr opts ->
  stderr_writes (snd (spawnAgent opts child sched))
  = map (fun line => line ++ NL) (complete_lines (child_text (c_stderr child))).
Proof.
  intros Hq. unfold spawnAgent. cbn [snd].
  rewrite race_stderr, drain_start by done.
  destruct (c_stderr child) as [chunks|]; [|done].
  rewrite readStream_stderr_trace. cbn [child_text trace world0 app].
  apply stderr_writes_map.
Qed.

(** *** The adapters *)

Lemma own_property_adapters (tool : jsstring) :
  match own_property adapters tool with
  | Some a => name a = tool /\ In (tool, a) adapters
  | None => tool ∉ map fst adapters
  end.
Proof.
  unfold adapters. cbn [own_property].
  repeat (case_bool_decide;
          [subst tool; split; [reflexivity | cbn [In]; tauto] | ]).
  intros Hin. apply list_elem_of_In in Hin. cbn [map fst In] in Hin.
  intuition congruence.
Qed.

(** X13: [getAdapter] returns the adapter registered under the name asked
    for, whose own name is that name; for any other name it throws, naming
    the tool and the four tools that exist, unless the name is a property
    of [Object.prototype], whose value it then returns as if it were an
    adapter. *)
Theorem getAdapter_cases (inherited : jsstring -> bool) (tool : jsstring) :
  match getAdapter inherited tool with
  | Adapter a => name a = tool /\ In (tool, a) adapters
  | Inherited key =>
      key = tool /\ inherited tool = true /\ (tool ∉ map fst adapters)
  | Thrown message =>
      inherited tool = false /\ (tool ∉ map fst adapters) /\
      message = lit "Unknown tool " ++ Q ++ tool ++ Q
                ++ lit ". Available: claude, amp, codex, gemini"
  end.
Proof.
  unfold getAdapter. pose proof (own_property_adapters tool) as H.
  destruct (own_property adapters tool) as [a|]; [done|].
  destruct (inherited tool); [done|]. repeat split; done.
Qed.

End ForwardingFacts.

(** ** The further properties on concrete input *)

Module MoreExamples.
Import WireFacts ForwardingFacts.

Ltac word_tac :=
  split;
  [ vm_compute; discriminate
  | vm_compute; repeat (apply List.Forall_cons; [reflexivity|]); apply List.Forall_nil ].

Ltac quote_free_tac :=
  vm_compute; repeat (apply List.Forall_cons; [cbv beta; discriminate|]);
  apply List.Forall_nil.

Ltac pairs_tac :=
  repeat (apply List.Forall_cons; [split; [word_tac | quote_free_tac]|]);
  apply List.Forall_nil.

Ltac not_in_text :=
  let H := fresh in
  intros H; apply list_elem_of_In in H; vm_compute in H; intuition discriminate.

Ltac plain_lines :=
  repeat (apply List.Forall_cons; [repeat split; vm_compute; reflexivity|]);
  apply List.Forall_nil.

Lemma parseAttrs_round_trip_witness :
  parseAttrs (attrs_text example_pairs)
  = fold_left (fun a kv => if bool_decide (fst kv = lit "__proto__") then a
                           else <[fst kv := snd kv]> a) example_pairs ∅.
Proof.
  apply (parseAttrs_round_trip example_pairs).
  unfold example_pairs. pairs_tac.
Defined.

Lemma self_closing_block_round_trip_witness :
  feed fresh (open_marker (lit "CHECKPOINT") [(lit "type", lit "decision")]
              ++ lit " pick one " ++ CLOSE_LITERAL ++ lit " trailing")
  = (fresh, Some {| type := lit "CHECKPOINT";
                    attrs := attrs_of [(lit "type", lit "decision")];
                    body := trim (lit " pick one ") |}).
Proof.
  apply (self_closing_block_round_trip fresh (lit "CHECKPOINT")
           [(lit "type", lit "decision")] (lit " pick one ") (lit " trailing")).
  - reflexivity.
  - word_tac.
  - pairs_tac.
  - not_in_text.
  - vm_compute. reflexivity.
Defined.

Lemma multiline_block_round_trip_witness :
  feed_lines fresh
    (open_marker (lit "TASK_COMPLETE") [(lit "task", lit "T1")]
     :: [lit "Done"; lit ""] ++ [CLOSE_LITERAL])
  = (fresh, None :: replicate 2 None
            ++ [Some {| type := lit "TASK_COMPLETE";
                        attrs := attrs_of [(lit "task", lit "T1")];
                        body := trim (join NL [lit "Done"; lit ""]) |}]).
Proof.
  apply (multiline_block_round_trip (lit "TASK_COMPLETE")
           [(lit "task", lit "T1")] [lit "Done"; lit ""]).
  - word_tac.
  - pairs_tac.
  - vm_compute. reflexivity.
  - vm_compute. reflexivity.
  - plain_lines.
Defined.

Lemma items_give_signals_in_order_witness :
  fst (feed_lines fresh (flat_map item_lines example_items)) = fresh /\
  returned (snd (feed_lines fresh (flat_map item_lines example_items)))
  = flat_map item_signals example_items.
Proof.
  apply (items_give_signals_in_order example_items).
  unfold example_items.
  apply List.Forall_cons; [split; vm_compute; reflexivity|].
  apply List.Forall_cons.
  { split; [word_tac|]. split; [unfold pairs_ok; pairs_tac|].
    split; [vm_compute; reflexivity|]. split; [vm_compute; reflexivity|].
    plain_lines. }
  apply List.Forall_cons; [split; vm_compute; reflexivity|].
  apply List.Forall_cons; [|apply List.Forall_nil].
  split; [word_tac|]. split; [unfold pairs_ok; pairs_tac|].
  split; [not_in_text | vm_compute; reflexivity].
Defined.

Lemma stderr_forwards_complete_lines_witness :
  stderr_writes (snd (spawnAgent quiet example_child [true; false; true]))
  = map (fun line => line ++ NL)
      (complete_lines (child_text (c_stderr example_child))).
Proof.
  apply (stderr_forwards_complete_lines quiet example_child [true; false; true]).
  split; intros; reflexivity.
Defined.

End MoreExamples.
